(** * npm audit: remediation classifier and targeted reinstaller

    A shallow embedding of [lib/audit.js]: the action classifier of
    [auditCmd], the fix-mode orchestration, the report-mode exit status,
    the translation of registry failures, the shrinkwrap patcher of
    the [Auditor] subclass of the installer, [maybeReadFile], the checks
    of [auditCmd] before the report is requested, and the completion. *)

From stdpp Require Import gmap strings list pretty.
From Stdlib Require Import ZArith Lia Ascii.

Local Open Scope string_scope.
Local Open Scope list_scope.

(** ** JavaScript primitives used by the source *)

Module JS.

(** [Array.prototype.indexOf]: position of the first element strictly equal
    to [x], or -1. *)
Fixpoint indexOf (x : string) (l : list string) : Z :=
  match l with
  | [] => (-1)%Z
  | y :: l' =>
      if String.eqb y x then 0%Z
      else let r := indexOf x l' in
           if (r <? 0)%Z then (-1)%Z else (r + 1)%Z
  end.

(** [Array.prototype.slice(start, end)] with its relative (negative)
    indices. *)
Definition slice {A} (start fin : Z) (l : list A) : list A :=
  let len := Z.of_nat (length l) in
  let k := if (start <? 0)%Z then Z.max (len + start) 0 else Z.min start len in
  let final := if (fin <? 0)%Z then Z.max (len + fin) 0 else Z.min fin len in
  take (Z.to_nat (final - k)) (drop (Z.to_nat k) l).

(** [String.prototype.split(sep)] for a one-character separator.  The
    result is never empty: the empty string splits to one empty segment. *)
Fixpoint split (sep : ascii) (s : string) : list string :=
  match s with
  | EmptyString => [EmptyString]
  | String c r =>
      if Ascii.eqb c sep then EmptyString :: split sep r
      else match split sep r with
           | seg :: segs => String c seg :: segs
           | [] => [String c EmptyString]
           end
  end.

(** [Array.prototype.join(sep)] on an array of strings. *)
Fixpoint join (sep : string) (l : list string) : string :=
  match l with
  | [] => EmptyString
  | [x] => x
  | x :: l' => x +:+ sep +:+ join sep l'
  end.

(** The equality a [Set] uses for membership (SameValueZero): strings are
    compared by value, objects by reference. *)
Class SameValueZero (A : Type) := sameValueZero : A -> A -> bool.

#[global] Instance string_sameValueZero : SameValueZero string := String.eqb.

(** A [Set], in insertion order (the order its iterator and the spread
    [[...s]] follow). *)
Definition Set_ (A : Type) := list A.

Definition has `{SameValueZero A} (x : A) (s : Set_ A) : bool :=
  existsb (sameValueZero x) s.

Definition add `{SameValueZero A} (x : A) (s : Set_ A) : Set_ A :=
  if has x s then s else s ++ [x].

Definition size {A} (s : Set_ A) : Z := Z.of_nat (length s).

Definition spread {A} (s : Set_ A) : list A := s.

End JS.

(** ** Data of the audit report *)

(** An entry of [action.resolves]. *)
Record Vuln := { path : string }.

(** The fields of a remediation action that [auditCmd] reads.  [action] is
    kept a string: the code compares it with ['install'], ['update'] and
    ['review'] and ignores every other value. *)
Record RemediationAction := {
  module : string;
  target : string;
  action : string;
  isMajor : bool;
  resolves : list Vuln
}.

(** An element of [auditResult.actions] is a reference to an object:
    [ref] is the identity of the object, [obj] its contents. *)
Record ActionRef := { ref : nat; obj : RemediationAction }.

#[global] Instance ActionRef_sameValueZero : JS.SameValueZero ActionRef :=
  fun a b => Nat.eqb (ref a) (ref b).

(** The accumulator of the classifying [reduce]. *)
Record ActionPlan := {
  install : JS.Set_ string;
  update : JS.Set_ string;
  major : JS.Set_ string;
  review : JS.Set_ ActionRef
}.

Definition empty_plan : ActionPlan :=
  {| install := []; update := []; major := []; review := [] |}.

(** The template [`${name}@${version}`]. *)
Definition at_spec (name version : string) : string :=
  name +:+ "@" +:+ version.

(** The entry one vulnerability adds to [update]:
    [modPath.slice(0, modPath.indexOf(name)).concat(`${name}@${version}`).join('>')]. *)
Definition update_entry (name version : string) (vuln : Vuln) : string :=
  let modPath := JS.split ">"%char (path vuln) in
  JS.join ">"
    (JS.slice 0 (JS.indexOf name modPath) modPath ++ [at_spec name version]).

(** The callback of [(auditResult.actions || []).reduce]. *)
Definition classify_step (acc : ActionPlan) (a : ActionRef) : ActionPlan :=
  let act := obj a in
  if isMajor act then
    {| install := install acc; update := update acc;
       major := JS.add (at_spec (module act) (target act)) (major acc);
       review := review acc |}
  else if String.eqb (action act) "install" then
    {| install := JS.add (at_spec (module act) (target act)) (install acc);
       update := update acc; major := major acc; review := review acc |}
  else if String.eqb (action act) "update" then
    let name := module act in
    let version := target act in
    {| install := install acc;
       update := fold_left (fun u vuln => JS.add (update_entry name version vuln) u)
                   (resolves act) (update acc);
       major := major acc; review := review acc |}
  else if String.eqb (action act) "review" then
    {| install := install acc; update := update acc; major := major acc;
       review := JS.add a (review acc) |}
  else acc.

Definition classify (actions : list ActionRef) : ActionPlan :=
  fold_left classify_step actions empty_plan.

(** ** Errors and results *)

(** A JavaScript error object: its constructor ([Error], [TypeError]) and
    the properties [auditCmd] reads or sets. *)
#[warnings="-register-all"]
Inductive JsError : Type := mkError {
  ctor : string;
  message : string;
  code : option string;
  statusCode : option Z;
  wrapped : option JsError
}.

(** [new Error(msg)]. *)
Definition new_Error (msg : string) : JsError :=
  {| ctor := "Error"; message := msg; code := None; statusCode := None;
     wrapped := None |}.

(** The error the engine raises when a property of [undefined] is read,
    written or called; [what] names the access. *)
Definition TypeError (what : string) : JsError :=
  {| ctor := "TypeError"; message := what; code := None; statusCode := None;
     wrapped := None |}.

Inductive Result (A : Type) : Type :=
| Ok (a : A)
| Throw (e : JsError).
Arguments Ok {A} a.
Arguments Throw {A} e.

Definition is_Throw {A} (r : Result A) : bool :=
  match r with Ok _ => false | Throw _ => true end.

(** ** The tail of [auditCmd]: after the report was requested *)

(** The counts of a report, and an HTTP status code, are JavaScript numbers
    holding integers; they are integers here. *)
Record VulnCounts := { low : Z; moderate : Z; high : Z; critical : Z }.
Record Metadata := { vulnerabilities : VulnCounts }.

Record AuditResult := {
  actions : option (list ActionRef);
  metadata : Metadata
}.

(** What [auditCmd] reads of [npm]. *)
Record Npm := {
  prefix : string;
  config_registry : string;
  config_dry_run : bool
}.

(** [process]: [exitCode] is [undefined] until it is assigned. *)
Record Process := { exitCode : option Z }.

(** The observable calls of the tail of [auditCmd] and of the lifecycle
    methods of an installer. *)
Inductive Effect : Type :=
| log_warn (pfx msg : string)
| log_notice (pfx msg : string) (count : Z) (msg' : string)
| Auditor_run (where_ : string) (dryrun : bool) (args : list string)
              (deepArgs : list (list string))
| printFullReport (r : AuditResult)
| run_script (stage : string).

(** The handler of [.catch(err => ...)] after [submitForFullReport]. *)
Definition on_submit_error (npm : Npm) (err : JsError) : Result AuditResult :=
  let unsupported :=
    match statusCode err with
    | Some c => (c =? 404)%Z || (500 <=? c)%Z
    | None => false
    end in
  if unsupported then
    let ne := new_Error ("Your configured registry (" +:+ config_registry npm
                         +:+ ") does not support audit requests.") in
    Throw {| ctor := ctor ne; message := message ne;
             code := Some "ENOAUDIT";
             statusCode := statusCode ne;
             wrapped := Some err |}
  else Throw err.

(** The body of [BB.try] in fix mode, given the classified actions. *)
Definition fix_orchestrate (npm : Npm) (plan : ActionPlan) : list Effect :=
  (if (JS.size (major plan) =? 0)%Z then [] else
     [ log_warn "audit" "some security updates involve breaking changes";
       log_warn "audit" "and will not be updated automatically.";
       log_warn "audit" "To update them yourself, run:";
       log_warn "audit" "";
       log_warn "audit" ("npm install " +:+ JS.join " " (JS.spread (major plan)));
       log_warn "audit" "" ])
  ++
  (if (JS.size (review plan) =? 0)%Z then [] else
     [ log_warn "audit" "some vulnerabilities require manual review";
       log_warn "audit" "run `npm audit` to view the full report" ])
  ++
  (if negb (JS.size (update plan) =? 0)%Z || negb (JS.size (install plan) =? 0)%Z
   then
     [ log_notice "audit" "installing"
         (JS.size (install plan) + JS.size (update plan))
         "updated packages with patched vulnerabilities";
       Auditor_run (prefix npm) (config_dry_run npm)
         (JS.spread (install plan))
         (map (JS.split ">"%char) (JS.spread (update plan))) ]
   else []).

(** The last [.then((auditResult) => ...)] of [auditCmd]. *)
Definition on_audit_result (npm : Npm) (args : list string)
    (auditResult : AuditResult) (proc : Process) : Process * list Effect :=
  if decide (args !! 0%nat = Some "fix") then
    (proc, fix_orchestrate npm (classify (default [] (actions auditResult))))
  else
    let v := vulnerabilities (metadata auditResult) in
    let vulns := (low v + moderate v + high v + critical v)%Z in
    ((if (0 <? vulns)%Z then {| exitCode := Some 1%Z |} else proc),
     [printFullReport auditResult]).

(** From the settled report request to the end of the chain. *)
Definition auditCmd_tail (npm : Npm) (args : list string)
    (submitted : Result AuditResult) (proc : Process)
  : Result (list Effect) * Process :=
  let caught :=
    match submitted with
    | Ok r => Ok r
    | Throw err => on_submit_error npm err
    end in
  match caught with
  | Ok auditResult =>
      let '(proc', effs) := on_audit_result npm args auditResult proc in
      (Ok effs, proc')
  | Throw e => (Throw e, proc)
  end.

(** ** The dependency tree and the [Auditor] *)

(** Nodes of the tree are objects on a heap; [requires] holds references,
    so a node reached along two paths (or along a cycle) is one object. *)
Abbreviation loc := nat.

(** The properties of a tree node that [loadShrinkwrap] touches.  A
    property that is absent (never set, or deleted) is [None];
    [package_shrinkwrap] is [package._shrinkwrap], a reference to the
    parsed lockfile when there is one. *)
Record Node := {
  name : string;
  version : option string;
  from : option string;
  resolved : option string;
  requires : option (list loc);
  integrity : option string;
  package_shrinkwrap : option nat
}.

(** The two properties of an [npm-package-arg] result that are read. *)
Record Spec := { spec_name : option string; fetchSpec : option string }.

(** Computations on the heap that may throw; what was written before a
    throw stays written. *)
Definition M (A : Type) : Type := gmap loc Node -> Result A * gmap loc Node.

Definition ret {A} (a : A) : M A := fun h => (Ok a, h).

Definition throw {A} (e : JsError) : M A := fun h => (Throw e, h).

Definition bind {A B} (m : M A) (k : A -> M B) : M B :=
  fun h => match m h with
           | (Ok a, h') => k a h'
           | (Throw e, h') => (Throw e, h')
           end.

Notation "'do' x <- m 'in' k" := (bind m (fun x => k))
  (at level 10, x name, m at level 100, k at level 200).
Notation "'exec' m 'in' k" := (bind m (fun _ => k))
  (at level 10, m at level 100, k at level 200).

Definition lift {A} (r : Result A) : M A := fun h => (r, h).

(** Dereference [v] to read or write one of its properties: a
    [TypeError] when [v] is [undefined]. *)
Definition deref (v : option loc) (what : string) : M (loc * Node) :=
  fun h => match v with
           | Some l => match h !! l with
                       | Some n => (Ok (l, n), h)
                       | None => (Throw (TypeError what), h)
                       end
           | None => (Throw (TypeError what), h)
           end.

Definition store (l : loc) (n : Node) : M unit :=
  fun h => (Ok tt, <[l := n]> h).

(** [rs.find(n => n.name === nm)], reading each element off the heap. *)
Fixpoint find_by_name (h : gmap loc Node) (nm : option string)
    (rs : list loc) : Result (option loc) :=
  match rs with
  | [] => Ok None
  | r :: rs' =>
      match h !! r with
      | Some n => if decide (Some (name n) = nm) then Ok (Some r)
                  else find_by_name h nm rs'
      | None => Throw (TypeError "name")
      end
  end.

(** [acc.requires.find(n => n.name === nm)]. *)
Definition requires_find (acc : option loc) (nm : option string)
  : M (option loc) :=
  do a <- deref acc "requires" in
  match requires (snd a) with
  | Some rs => fun h => (find_by_name h nm rs, h)
  | None => throw (TypeError "find")
  end.

(** The assignment to [version] and the four [delete]s. *)
Definition strip (spec : Spec) (n : Node) : Node :=
  {| name := name n;
     version := fetchSpec spec;
     from := None;
     resolved := None;
     requires := None;
     integrity := None;
     package_shrinkwrap := package_shrinkwrap n |}.

(** [arr.reduce(f, init)], the callback receiving the index. *)
Fixpoint reduce {A B} (f : B -> A -> nat -> M B) (l : list A) (i : nat)
    (acc : B) : M B :=
  match l with
  | [] => ret acc
  | x :: l' => do acc' <- f acc x i in reduce f l' (S i) acc'
  end.

(** [arr.forEach(f)]. *)
Fixpoint forEach {A} (f : A -> M unit) (l : list A) : M unit :=
  match l with
  | [] => ret tt
  | x :: l' => exec f x in forEach f l'
  end.

(** The instance state of an [Auditor]: what the constructor of the
    installer stores, the ideal tree the installer has loaded by the time
    [loadShrinkwrap] runs, and the deep arguments. *)
Record Auditor := {
  where_ : string;
  dryrun : bool;
  args : list string;
  idealTree : loc;
  _deepArgs : list (list string)
}.

(** A method taking a node-style callback: the run continues with what
    the callback does with the error it is given. *)
Definition Callback := option JsError -> list Effect.

Section Installer.

(** The collaborators of [lib/audit.js] that live in other modules. *)
Variable npa : string -> Result Spec.
Variable readShrinkwrap : loc -> M unit.
Variable inflateShrinkwrap : loc -> option nat -> M unit.

(** The callback of [arg.reduce] in [loadShrinkwrap]. *)
Definition patch_step (this : Auditor) (acc : option loc) (child : string)
    (i : nat) : M (option loc) :=
  exec
    (if (Z.of_nat i =? Z.of_nat (length (_deepArgs this)) - 1)%Z then
       do spec <- lift (npa child) in
       do target <- requires_find acc (spec_name spec) in
       do t <- deref target "version" in
       store (fst t) (strip spec (snd t))
     else ret tt)
  in requires_find acc (Some child).

(** One deep-arg path: [arg.reduce(..., this.idealTree)]. *)
Definition patch_path (this : Auditor) (arg : list string) : M (option loc) :=
  reduce (patch_step this) arg 0 (Some (idealTree this)).

(** [this._deepArgs.forEach(arg => { arg.reduce(...) })]. *)
Definition apply_deepArgs (this : Auditor) : M unit :=
  forEach (fun arg => exec patch_path this arg in ret tt) (_deepArgs this).

(** [Auditor.prototype.loadShrinkwrap], up to the callback ([nodeify]
    hands it the outcome).  The check that the callback is a function and
    the [log.silly] line are left out. *)
Definition loadShrinkwrap (this : Auditor) : M unit :=
  exec readShrinkwrap (idealTree this) in
  do root <- deref (Some (idealTree this)) "package" in
  match package_shrinkwrap (snd root) with
  | Some _ =>
      exec apply_deepArgs this in
      do root' <- deref (Some (idealTree this)) "package" in
      inflateShrinkwrap (idealTree this) (package_shrinkwrap (snd root'))
  | None => ret tt
  end.

(** The two overriding lifecycle methods: [(cb) { cb() }]. *)
Definition runPreinstallTopLevelLifecycles (this : Auditor) (cb : Callback)
  : list Effect := cb None.

Definition runPostinstallTopLevelLifecycles (this : Auditor) (cb : Callback)
  : list Effect := cb None.

End Installer.

(** The constructor: [this._deepArgs = (opts && opts.deepArgs) || []]. *)
Definition new_Auditor (where_ : string) (dryrun : bool) (args : list string)
    (opts : option (option (list (list string)))) (idealTree : loc) : Auditor :=
  {| where_ := where_; dryrun := dryrun; args := args; idealTree := idealTree;
     _deepArgs := default [] (default None opts) |}.

(** ** Files, and [auditCmd] from its first line *)

(** A parsed JSON value.  [null] is also what [maybeReadFile] gives for a
    file that does not exist.  Numbers are integers here: of a number only
    whether it is zero is ever looked at.  The fields of an object are its
    own properties. *)
#[warnings="-register-all"]
Inductive Json : Type :=
| JNull
| JBool (b : bool)
| JNumber (z : Z)
| JString (s : string)
| JArray (items : list Json)
| JObject (fields : list (string * Json)).

(** [ToBoolean]: what [!v], [v || w] and [v && w] test. *)
Definition truthy (v : Json) : bool :=
  match v with
  | JNull => false
  | JBool b => b
  | JNumber z => negb (z =? 0)%Z
  | JString s => negb (String.eqb s "")
  | JArray _ => true
  | JObject _ => true
  end.

(** The own enumerable properties [Object.assign] copies from a source:
    the fields of an object, the elements of an array and the characters
    of a string under their indices, nothing of a number or a boolean. *)
Definition own_props (v : Json) : list (string * Json) :=
  match v with
  | JObject fields => fields
  | JArray items => imap (fun i x => (pretty i, x)) items
  | JString s =>
      imap (fun i c => (pretty i, JString (String c EmptyString)))
        (String.list_ascii_of_string s)
  | _ => []
  end.

(** [Object.assign(target, source)] on an object used as a map. *)
Definition assign (target : gmap string Json) (source : Json)
  : gmap string Json :=
  fold_left (fun m kv => <[fst kv := snd kv]> m) (own_props source) target.

(** [v.dependencies] and [v.devDependencies] on a truthy [v]: the field of
    an object, [undefined] on anything else. *)
Definition get (v : Json) (key : string) : option Json :=
  match v with
  | JObject _ => assign ∅ v !! key
  | _ => None
  end.

(** [x || {}]. *)
Definition or_empty (x : option Json) : Json :=
  match x with
  | Some v => if truthy v then v else JObject []
  | None => JObject []
  end.

(** [Object.assign({}, pkgJson.dependencies || {}, pkgJson.devDependencies || {})]. *)
Definition requires_of (pkgJson : Json) : gmap string Json :=
  assign (assign ∅ (or_empty (get pkgJson "dependencies")))
    (or_empty (get pkgJson "devDependencies")).

(** [ex.code = c]. *)
Definition set_code (ex : JsError) (c : string) : JsError :=
  {| ctor := ctor ex; message := message ex; code := Some c;
     statusCode := statusCode ex; wrapped := wrapped ex |}.

(** What [maybeReadFile] settles to: the parsed value, or an error on
    which the property [file] was set. *)
Inductive FileResult : Type :=
| file_value (v : Json)
| file_error (ex : JsError) (file : string).

Section Files.

(** [fs.readFile], promisified, and [json-parse-better-errors]. *)
Variable readFile : string -> Result string.
Variable parseJson : string -> Result Json.

Definition maybeReadFile (npm : Npm) (name : string) : FileResult :=
  let file := prefix npm +:+ "/" +:+ name in
  let parsed :=
    match readFile file with
    | Ok data =>
        match parseJson data with
        | Ok v => Ok v
        | Throw ex => Throw (set_code ex "EJSONPARSE")
        end
    | Throw e => Throw e
    end in
  match parsed with
  | Ok v => file_value v
  | Throw e =>
      if decide (code e = Some "ENOENT") then file_value JNull
      else file_error e file
  end.

End Files.

(** The result of [lockVerify]. *)
Record LockVerifyResult := { status : bool; errors : list string }.

(** A line feed, and [auditCmd.usage]. *)
Definition nl : string := String "010"%char EmptyString.

Definition usage : string := "npm audit" +:+ nl +:+ "npm audit fix" +:+ nl.

(** How a call of [auditCmd] ends: it throws, or the callback is called,
    with an error or without. *)
Inductive Outcome : Type :=
| thrown (e : JsError)
| called_back (err : option JsError).

Definition error_with_code (msg c : string) : JsError :=
  set_code (new_Error msg) c.

Section AuditCmd.

(** The collaborators: [lock-verify] and [lib/install/audit.js]. *)
Variable AuditReport : Type.
Variable lockVerify : string -> Result LockVerifyResult.
Variable generate : Json -> gmap string Json -> Result AuditReport.
Variable submitForFullReport : AuditReport -> Result AuditResult.

(** The handler of [.spread((shrinkwrap, lockfile, pkgJson) => ...)] and the
    [.then] that submits: the settled request and what was logged. *)
Definition request_report (npm : Npm) (shrinkwrap lockfile pkgJson : Json)
  : Result AuditResult * list Effect :=
  let sw := if truthy shrinkwrap then shrinkwrap else lockfile in
  if negb (truthy pkgJson) then
    (Throw (error_with_code
              "No package.json found: Cannot audit a project without a package.json"
              "EAUDITNOPJSON"), [])
  else if negb (truthy sw) then
    (Throw (error_with_code
              "Neither npm-shrinkwrap.json nor package-lock.json found: Cannot audit a project without a lockfile"
              "EAUDITNOLOCK"), [])
  else
    let logged :=
      if truthy shrinkwrap && truthy lockfile then
        [log_warn "audit"
           "Both npm-shrinkwrap.json and package-lock.json exist, using npm-shrinkwrap.json."]
      else [] in
    let requires := requires_of pkgJson in
    (match lockVerify (prefix npm) with
     | Ok result =>
         if status result then
           match generate sw requires with
           | Ok auditReport => submitForFullReport auditReport
           | Throw e => Throw e
           end
         else
           let lockFile := if truthy shrinkwrap then "npm-shrinkwrap.json"
                           else "package-lock.json" in
           Throw (error_with_code
                    ("Errors were found in your " +:+ lockFile
                     +:+ ", run  npm install  to fix them." +:+ nl +:+ "    "
                     +:+ JS.join (nl +:+ "    ") (errors result))
                    "ELOCKVERIFY")
     | Throw e => Throw e
     end, logged).

(** [auditCmd (args, cb)].  [files] is what [BB.all] of the three
    [maybeReadFile] settles to. *)
Definition auditCmd (npm : Npm) (global : bool) (args : list string)
    (files : Result (Json * Json * Json)) (proc : Process)
  : Outcome * Process * list Effect :=
  if global then
    (thrown (error_with_code "`npm audit` does not support testing globals"
               "EAUDITGLOBAL"), proc, [])
  else
    let invalid :=
      match args with
      | arg0 :: _ => if negb (String.eqb arg0 "fix") then Some arg0 else None
      | [] => None
      end in
    match invalid with
    | Some arg0 =>
        (called_back
           (Some (new_Error ("Invalid audit subcommand: `" +:+ arg0 +:+ "`"
                             +:+ nl +:+ nl +:+ "Usage:" +:+ nl +:+ usage))),
         proc, [])
    | None =>
        let '(submitted, logged) :=
          match files with
          | Ok (shrinkwrap, lockfile, pkgJson) =>
              request_report npm shrinkwrap lockfile pkgJson
          | Throw e => (Throw e, [])
          end in
        match auditCmd_tail npm args submitted proc with
        | (Ok effs, proc') => (called_back None, proc', logged ++ effs)
        | (Throw e, proc') => (called_back (Some e), proc', logged)
        end
    end.

End AuditCmd.

(** [auditCmd.completion]: what the callback is given. *)
Definition completion (argv : list string) : Result (list string) :=
  match argv !! 2%nat with
  | Some arg2 =>
      if String.eqb arg2 "audit" then Ok []
      else Throw (new_Error (arg2 +:+ " not recognized"))
  | None => Throw (new_Error ("undefined" +:+ " not recognized"))
  end.

(** ** Notions used to state the properties *)

#[global] Instance Vuln_eq_dec : EqDecision Vuln.
Proof. solve_decision. Defined.

#[global] Instance RemediationAction_eq_dec : EqDecision RemediationAction.
Proof. solve_decision. Defined.

(** The buckets hold no duplicates: strings by value, actions by
    reference. *)
Definition plan_NoDup (p : ActionPlan) : Prop :=
  NoDup (install p) /\ NoDup (update p) /\ NoDup (major p) /\
  NoDup (map ref (review p)).

(** Nothing is ever removed from a bucket. *)
Definition plan_le (p q : ActionPlan) : Prop :=
  incl (install p) (install q) /\ incl (update p) (update q) /\
  incl (major p) (major q) /\ incl (map ref (review p)) (map ref (review q)).

(** How many entries of [review] have the contents [r]. *)
Definition review_entries_with (r : RemediationAction) (p : ActionPlan) : nat :=
  length (filter (fun e => bool_decide (obj e = r)) (review p)).

(** The install arguments and deep arguments of every [Auditor] that a
    run constructs. *)
Fixpoint reinstaller_calls (effs : list Effect)
  : list (list string * list (list string)) :=
  match effs with
  | [] => []
  | Auditor_run _ _ args deepArgs :: effs' =>
      (args, deepArgs) :: reinstaller_calls effs'
  | _ :: effs' => reinstaller_calls effs'
  end.


(** The node reached from [p] by looking the names up one after the
    other in [requires], when every lookup finds a child. *)
Fixpoint descend (h : gmap loc Node) (p : loc) (names : list string)
  : option loc :=
  match names with
  | [] => Some p
  | nm :: names' =>
      match fst (requires_find (Some p) (Some nm) h) with
      | Ok (Some c) => descend h c names'
      | _ => None
      end
  end.

(** Modelled from the spec: [npm-package-arg] is a dependency, not part of
    [lib/audit.js].  The last segment of a deep-arg path is a full
    specifier [name@target], of which the name and the version/range
    component are used.  The first character belongs to the name (a scope
    starts with [@]); the rest is cut at its first [@].  For a segment
    without a [@target] the model takes the library's default, the tag
    [latest]. *)
Fixpoint cut_at_sign (s : string) : string * option string :=
  match s with
  | EmptyString => (EmptyString, None)
  | String c r =>
      if Ascii.eqb c "@" then (EmptyString, Some r)
      else let '(n, t) := cut_at_sign r in (String c n, t)
  end.

Definition npa_model (s : string) : Result Spec :=
  match s with
  | EmptyString => Ok {| spec_name := None; fetchSpec := Some "latest" |}
  | String c r =>
      let '(n, t) := cut_at_sign r in
      Ok {| spec_name := Some (String c n);
            fetchSpec := Some (default "latest" t) |}
  end.

(** Example trees.  [tree_ab]: the root requires [a], which requires [b].
    [tree_y]: the root requires [y] only. *)
Definition example_node (n v : string) (rs : list loc) (sw : option nat)
  : Node :=
  {| name := n; version := Some v; from := Some (n +:+ "@^1.0.0");
     resolved := Some ("https://registry.npmjs.org/" +:+ n);
     requires := Some rs; integrity := Some "sha512-0";
     package_shrinkwrap := sw |}.

Definition tree_ab : gmap loc Node :=
  <[0%nat := example_node "app" "1.0.0" [1%nat] (Some 0%nat)]>
    (<[1%nat := example_node "a" "1.0.0" [2%nat] None]>
       (<[2%nat := example_node "b" "1.0.0" [] None]> ∅)).

Definition tree_y : gmap loc Node :=
  <[0%nat := example_node "app" "1.0.0" [1%nat] (Some 0%nat)]>
    (<[1%nat := example_node "y" "1.0.0" [] None]> ∅).

(** What one action contributes to each bucket. *)
Definition gives_install (a : ActionRef) (x : string) : Prop :=
  isMajor (obj a) = false /\ action (obj a) = "install"
  /\ x = at_spec (module (obj a)) (target (obj a)).

Definition gives_major (a : ActionRef) (x : string) : Prop :=
  isMajor (obj a) = true /\ x = at_spec (module (obj a)) (target (obj a)).

Definition gives_update (a : ActionRef) (x : string) : Prop :=
  isMajor (obj a) = false /\ action (obj a) = "update"
  /\ exists v, In v (resolves (obj a))
               /\ x = update_entry (module (obj a)) (target (obj a)) v.

Definition gives_review (a : ActionRef) (r : nat) : Prop :=
  isMajor (obj a) = false /\ action (obj a) = "review" /\ r = ref a.

(** Whether the character [c] occurs in [s]. *)
Fixpoint contains (c : ascii) (s : string) : bool :=
  match s with
  | EmptyString => false
  | String d r => Ascii.eqb d c || contains c r
  end.

(** [h'] is [h] with some nodes stripped: no node is added or removed,
    and a node is either as it was or [strip]ped. *)
Definition only_stripped (h h' : gmap loc Node) : Prop :=
  forall l,
    match h' !! l with
    | Some n' => exists n, h !! l = Some n
                           /\ (n' = n \/ exists spec, n' = strip spec n)
    | None => h !! l = None
    end.

(** * Properties *)

(** ** Arrays and strings *)

Section ArrayLemmas.

Lemma indexOf_ge (x : string) (l : list string) : (-1 <= JS.indexOf x l)%Z.
Proof.
  induction l as [|y l IH]; simpl; [lia|].
  destruct (String.eqb y x); [lia|].
  destruct (Z.ltb_spec (JS.indexOf x l) 0); lia.
Qed.

(** [indexOf] finds the first occurrence. *)
Lemma indexOf_first (x : string) (pre post : list string) :
  ~ In x pre -> JS.indexOf x (pre ++ x :: post) = Z.of_nat (length pre).
Proof.
  induction pre as [|y pre IH]; intros Hn; simpl.
  - by rewrite String.eqb_refl.
  - destruct (String.eqb y x) eqn:E.
    + apply String.eqb_eq in E. exfalso. apply Hn. by left.
    + rewrite IH by (intros H; apply Hn; by right).
      destruct (Z.ltb_spec (Z.of_nat (length pre)) 0); lia.
Qed.

Lemma indexOf_absent (x : string) (l : list string) :
  ~ In x l -> JS.indexOf x l = (-1)%Z.
Proof.
  induction l as [|y l IH]; intros Hn; simpl; [done|].
  destruct (String.eqb y x) eqn:E.
  - apply String.eqb_eq in E. exfalso. apply Hn. by left.
  - rewrite IH by (intros H; apply Hn; by right). done.
Qed.

(** Every member has a first occurrence. *)
Lemma In_first_occurrence (x : string) (l : list string) :
  In x l -> exists pre post, l = pre ++ x :: post /\ ~ In x pre.
Proof.
  induction l as [|y l IH]; intros Hin; [done|].
  destruct (decide (y = x)) as [->|Hne].
  - exists [], l. split; [done|]. intros [].
  - destruct Hin as [Heq|Hin]; [done|].
    destruct (IH Hin) as (pre & post & -> & Hn).
    exists (y :: pre), post. split; [done|].
    intros [H|H]; [done|by apply Hn].
Qed.

Lemma slice_0_prefix {A} (pre rest : list A) :
  JS.slice 0 (Z.of_nat (length pre)) (pre ++ rest) = pre.
Proof.
  unfold JS.slice. cbv zeta.
  replace (0 <? 0)%Z with false by done.
  destruct (Z.ltb_spec (Z.of_nat (length pre)) 0); [lia|].
  rewrite length_app.
  replace (Z.min 0 _) with 0%Z by lia.
  replace (Z.to_nat (_ - 0)) with (length pre) by lia.
  change (Z.to_nat 0) with 0%nat. rewrite drop_0. apply take_app_length.
Qed.

(** [slice(0, -1)] drops the last element. *)
Lemma slice_0_m1 {A} (l : list A) : JS.slice 0 (-1) l = removelast l.
Proof.
  unfold JS.slice. cbv zeta.
  replace (0 <? 0)%Z with false by done.
  replace (-1 <? 0)%Z with true by done.
  replace (Z.min 0 _) with 0%Z by lia.
  change (Z.to_nat 0) with 0%nat. rewrite drop_0.
  destruct l as [|x l _] using rev_ind; [done|].
  rewrite removelast_last, length_app.
  replace (Z.to_nat _) with (length l) by (simpl; lia).
  apply take_app_length.
Qed.

Lemma split_nonempty (sep : ascii) (s : string) : JS.split sep s <> [].
Proof.
  destruct s as [|c r]; simpl; [done|].
  destruct (Ascii.eqb c sep); [done|].
  by destruct (JS.split sep r).
Qed.

Lemma join_cons (sep x y : string) (l : list string) :
  JS.join sep (x :: y :: l) = x +:+ sep +:+ JS.join sep (y :: l).
Proof. reflexivity. Qed.

(** Joining the segments with the separator gives the string back. *)
Lemma join_split (sep : ascii) (s : string) :
  JS.join (String sep EmptyString) (JS.split sep s) = s.
Proof.
  induction s as [|c r IH]; [done|].
  pose proof (split_nonempty sep r) as Hne.
  cbn [JS.split].
  destruct (JS.split sep r) as [|seg segs] eqn:Es; [done|].
  destruct (Ascii.eqb c sep) eqn:E.
  - apply Ascii.eqb_eq in E. subst c.
    rewrite join_cons, IH. reflexivity.
  - destruct segs as [|seg' segs].
    + cbn in IH |- *. by rewrite IH.
    + rewrite join_cons in IH |- *. rewrite <- IH. reflexivity.
Qed.

End ArrayLemmas.

(** ** Sets *)

Section SetLemmas.

Lemma has_string (x : string) (s : JS.Set_ string) :
  JS.has x s = true <-> In x s.
Proof.
  unfold JS.has. rewrite existsb_exists. split.
  - intros (y & Hy & E). apply String.eqb_eq in E. by subst.
  - intros H. exists x. split; [done|]. apply String.eqb_refl.
Qed.

Lemma has_ref (a : ActionRef) (s : JS.Set_ ActionRef) :
  JS.has a s = true <-> In (ref a) (map ref s).
Proof.
  unfold JS.has. rewrite existsb_exists, in_map_iff. split.
  - intros (y & Hy & E). apply Nat.eqb_eq in E. eauto.
  - intros (y & E & Hy). exists y. split; [done|]. by apply Nat.eqb_eq.
Qed.

(** Adding keeps what was there, in place. *)
Lemma add_keeps `{JS.SameValueZero A} (x y : A) (s : JS.Set_ A) :
  In y s -> In y (JS.add x s).
Proof.
  intros Hy. unfold JS.add. destruct (JS.has x s); [done|].
  apply in_or_app. by left.
Qed.

Lemma add_string_In (x y : string) (s : JS.Set_ string) :
  In y (JS.add x s) <-> y = x \/ In y s.
Proof.
  unfold JS.add. destruct (JS.has x s) eqn:E.
  - apply has_string in E. split; [by right|]. intros [->|]; done.
  - rewrite in_app_iff. simpl. intuition.
Qed.

Lemma add_string_NoDup (x : string) (s : JS.Set_ string) :
  NoDup s -> NoDup (JS.add x s).
Proof.
  intros Hs. unfold JS.add. destruct (JS.has x s) eqn:E; [done|].
  apply NoDup_app; repeat split; [done| |apply NoDup_singleton].
  intros y Hy Hx. apply list_elem_of_In in Hy.
  apply list_elem_of_singleton in Hx. subst y.
  apply has_string in Hy. congruence.
Qed.

Lemma add_ref_NoDup (a : ActionRef) (s : JS.Set_ ActionRef) :
  NoDup (map ref s) -> NoDup (map ref (JS.add a s)).
Proof.
  intros Hs. unfold JS.add. destruct (JS.has a s) eqn:E; [done|].
  rewrite map_app. apply NoDup_app; repeat split; [done| |apply NoDup_singleton].
  intros y Hy Hx. apply list_elem_of_In in Hy.
  apply list_elem_of_singleton in Hx. subst y.
  apply has_ref in Hy. congruence.
Qed.

Lemma add_ref_In (a : ActionRef) (s : JS.Set_ ActionRef) :
  In (ref a) (map ref (JS.add a s)).
Proof.
  unfold JS.add. destruct (JS.has a s) eqn:E.
  - by apply has_ref.
  - rewrite map_app, in_app_iff. right. by left.
Qed.

End SetLemmas.

(** ** The classifier *)

Section Classifier.

Lemma plan_le_refl (p : ActionPlan) : plan_le p p.
Proof. repeat split; apply incl_refl. Qed.

Lemma plan_le_trans (p q r : ActionPlan) :
  plan_le p q -> plan_le q r -> plan_le p r.
Proof.
  intros (?&?&?&?) (?&?&?&?). repeat split; eapply incl_tran; eauto.
Qed.

Lemma fold_add_In (f : Vuln -> string) (vs : list Vuln) (u : JS.Set_ string)
    (e : string) :
  In e (fold_left (fun u v => JS.add (f v) u) vs u)
  <-> In e u \/ exists v, In v vs /\ e = f v.
Proof.
  revert u. induction vs as [|v vs IH]; intros u; simpl.
  - split; [by left|]. intros [H|(v & [] & _)]. done.
  - rewrite IH, add_string_In. split.
    + intros [[->|H]|(w & Hw & ->)]; eauto.
    + intros [H|(w & [<-|Hw] & ->)]; eauto.
Qed.

Lemma fold_add_NoDup (f : Vuln -> string) (vs : list Vuln)
    (u : JS.Set_ string) :
  NoDup u -> NoDup (fold_left (fun u v => JS.add (f v) u) vs u).
Proof.
  revert u. induction vs as [|v vs IH]; intros u Hu; simpl; [done|].
  apply IH. by apply add_string_NoDup.
Qed.

Ltac step_cases a :=
  unfold classify_step;
  destruct (isMajor (obj a)) eqn:?;
  [ | destruct (String.eqb (action (obj a)) "install") eqn:?;
      [ | destruct (String.eqb (action (obj a)) "update") eqn:?;
          [ | destruct (String.eqb (action (obj a)) "review") eqn:? ] ] ];
  cbn [install update major review].

Lemma classify_step_NoDup (acc : ActionPlan) (a : ActionRef) :
  plan_NoDup acc -> plan_NoDup (classify_step acc a).
Proof.
  intros (Hi & Hu & Hm & Hr). unfold plan_NoDup. step_cases a;
    repeat split;
    auto using add_string_NoDup, add_ref_NoDup, fold_add_NoDup.
Qed.

Lemma classify_step_le (acc : ActionPlan) (a : ActionRef) :
  plan_le acc (classify_step acc a).
Proof.
  unfold plan_le. step_cases a; repeat split;
    try apply incl_refl; intros x Hx.
  - by apply add_keeps.
  - by apply add_keeps.
  - apply fold_add_In. by left.
  - apply in_map_iff in Hx as (b & <- & Hb).
    apply in_map. by apply add_keeps.
Qed.

Lemma classify_from_NoDup (l : list ActionRef) (acc : ActionPlan) :
  plan_NoDup acc -> plan_NoDup (fold_left classify_step l acc).
Proof.
  revert acc. induction l as [|a l IH]; intros acc H; simpl; [done|].
  apply IH. by apply classify_step_NoDup.
Qed.

Lemma classify_from_le (l : list ActionRef) (acc : ActionPlan) :
  plan_le acc (fold_left classify_step l acc).
Proof.
  revert acc. induction l as [|a l IH]; intros acc; simpl.
  - apply plan_le_refl.
  - eapply plan_le_trans; [apply classify_step_le | apply IH].
Qed.

Lemma classify_NoDup (l : list ActionRef) : plan_NoDup (classify l).
Proof.
  apply classify_from_NoDup. repeat split; apply NoDup_nil_2.
Qed.

(** What an action put in a bucket at its turn is there at the end. *)
Lemma classify_after_step (l : list ActionRef) (a : ActionRef) :
  In a l ->
  exists acc, plan_le (classify_step acc a) (classify l).
Proof.
  intros Hin. apply in_split in Hin as (l1 & l2 & ->).
  exists (fold_left classify_step l1 empty_plan).
  unfold classify. rewrite fold_left_app. simpl.
  apply classify_from_le.
Qed.

(** What one step adds, by branch. *)
Lemma step_major (acc : ActionPlan) (a : ActionRef) :
  isMajor (obj a) = true ->
  classify_step acc a =
    {| install := install acc; update := update acc;
       major := JS.add (at_spec (module (obj a)) (target (obj a))) (major acc);
       review := review acc |}.
Proof. intros H. unfold classify_step. by rewrite H. Qed.

Lemma step_install (acc : ActionPlan) (a : ActionRef) :
  isMajor (obj a) = false -> action (obj a) = "install" ->
  classify_step acc a =
    {| install := JS.add (at_spec (module (obj a)) (target (obj a))) (install acc);
       update := update acc; major := major acc; review := review acc |}.
Proof. intros H E. unfold classify_step. by rewrite H, E. Qed.

Lemma step_update (acc : ActionPlan) (a : ActionRef) :
  isMajor (obj a) = false -> action (obj a) = "update" ->
  classify_step acc a =
    {| install := install acc;
       update := fold_left
                   (fun u v =>
                      JS.add (update_entry (module (obj a)) (target (obj a)) v) u)
                   (resolves (obj a)) (update acc);
       major := major acc; review := review acc |}.
Proof. intros H E. unfold classify_step. by rewrite H, E. Qed.

Lemma step_review (acc : ActionPlan) (a : ActionRef) :
  isMajor (obj a) = false -> action (obj a) = "review" ->
  classify_step acc a =
    {| install := install acc; update := update acc; major := major acc;
       review := JS.add a (review acc) |}.
Proof. intros H E. unfold classify_step. by rewrite H, E. Qed.

End Classifier.

(** ** Claims about the classifier *)

(** C4: an action whose [isMajor] is true adds [module@target] to [major]
    and leaves [install], [update] and [review] as they were, whatever its
    [action] field is; after the whole run its [module@target] is in
    [major]. *)
Theorem C4_major_precedence (acc : ActionPlan) (a : ActionRef)
    (l : list ActionRef) :
  isMajor (obj a) = true ->
  (major (classify_step acc a)
     = JS.add (at_spec (module (obj a)) (target (obj a))) (major acc)
   /\ In (at_spec (module (obj a)) (target (obj a))) (major (classify_step acc a))
   /\ install (classify_step acc a) = install acc
   /\ update (classify_step acc a) = update acc
   /\ review (classify_step acc a) = review acc)
  /\ (In a l ->
      In (at_spec (module (obj a)) (target (obj a))) (major (classify l))).
Proof.
  intros Hmaj.
  assert (Hin : forall acc',
             In (at_spec (module (obj a)) (target (obj a)))
                (major (classify_step acc' a))).
  { intros acc'. rewrite step_major by done. cbn [major].
    apply add_string_In. by left. }
  split.
  - rewrite step_major by done. cbn [install update major review].
    repeat split. specialize (Hin acc). by rewrite step_major in Hin.
  - intros Hl. destruct (classify_after_step l a Hl) as (acc' & _ & _ & Hm & _).
    apply Hm, Hin.
Qed.

Lemma C4_major_precedence_witness :
  let a := {| ref := 0;
              obj := {| module := "lodash"; target := "5.0.0";
                        action := "install"; isMajor := true;
                        resolves := [] |} |} in
  install (classify_step empty_plan a) = [] /\
  In "lodash@5.0.0" (major (classify [a])).
Proof.
  intros a.
  destruct (C4_major_precedence empty_plan a [a] eq_refl)
    as ((_ & _ & Hi & _) & Hl).
  split; [exact Hi | apply Hl; by left].
Defined.

(** C5: for a non-major [update] action and a vulnerability of its
    [resolves] whose path has [module] among its [>]-separated segments,
    the entry added to [update] is the segments strictly before the first
    occurrence of [module], then [module@target], joined with [>]; the path
    [a>b>c>d] with module [c] and target [2.0.0] gives [a>b>c@2.0.0]. *)
Theorem C5_update_path_truncation (acc : ActionPlan) (a : ActionRef)
    (v : Vuln) :
  isMajor (obj a) = false ->
  action (obj a) = "update" ->
  In v (resolves (obj a)) ->
  In (module (obj a)) (JS.split ">" (path v)) ->
  (exists pre post,
      JS.split ">" (path v) = pre ++ module (obj a) :: post
      /\ ~ In (module (obj a)) pre
      /\ update_entry (module (obj a)) (target (obj a)) v
         = JS.join ">" (pre ++ [at_spec (module (obj a)) (target (obj a))])
      /\ In (JS.join ">" (pre ++ [at_spec (module (obj a)) (target (obj a))]))
            (update (classify_step acc a)))
  /\ update_entry "c" "2.0.0" {| path := "a>b>c>d" |} = "a>b>c@2.0.0".
Proof.
  intros Hmaj Hact Hv Hseg. split; [|reflexivity].
  destruct (In_first_occurrence _ _ Hseg) as (pre & post & Hsplit & Hpre).
  exists pre, post.
  assert (E : update_entry (module (obj a)) (target (obj a)) v
              = JS.join ">" (pre ++ [at_spec (module (obj a)) (target (obj a))])).
  { unfold update_entry. cbv zeta. rewrite Hsplit.
    rewrite indexOf_first by done. by rewrite slice_0_prefix. }
  repeat split; [done..|].
  rewrite step_update by done. cbn [update].
  apply fold_add_In. right. exists v. by split.
Qed.

Lemma C5_update_path_truncation_witness :
  In "a>b>c@2.0.0"
     (update (classify_step empty_plan
                {| ref := 0;
                   obj := {| module := "c"; target := "2.0.0";
                             action := "update"; isMajor := false;
                             resolves := [{| path := "a>b>c>d" |}] |} |})).
Proof.
  destruct (C5_update_path_truncation empty_plan
              {| ref := 0;
                 obj := {| module := "c"; target := "2.0.0";
                           action := "update"; isMajor := false;
                           resolves := [{| path := "a>b>c>d" |}] |} |}
              {| path := "a>b>c>d" |} eq_refl eq_refl
              (or_introl eq_refl)
              (or_intror (or_intror (or_introl eq_refl))))
    as ((pre & post & _ & _ & E & Hin) & _).
  rewrite <- E in Hin. exact Hin.
Defined.

(** C7: for a non-major [update] action and a vulnerability of its
    [resolves] whose path does not have [module] among its segments, the
    classifier still produces an entry: [indexOf] is -1, the slice keeps
    all segments but the last, and the entry is the path with its last
    segment replaced by [module@target]; the path [a>b] with module [c] and
    target [1.0.0] gives [a>c@1.0.0]. *)
Theorem C7_update_path_without_module (acc : ActionPlan) (a : ActionRef)
    (v : Vuln) :
  isMajor (obj a) = false ->
  action (obj a) = "update" ->
  In v (resolves (obj a)) ->
  ~ In (module (obj a)) (JS.split ">" (path v)) ->
  JS.indexOf (module (obj a)) (JS.split ">" (path v)) = (-1)%Z
  /\ (exists init last,
         JS.split ">" (path v) = init ++ [last]
         /\ path v = JS.join ">" (init ++ [last])
         /\ update_entry (module (obj a)) (target (obj a)) v
            = JS.join ">" (init ++ [at_spec (module (obj a)) (target (obj a))])
         /\ In (JS.join ">" (init ++ [at_spec (module (obj a)) (target (obj a))]))
               (update (classify_step acc a)))
  /\ update_entry "c" "1.0.0" {| path := "a>b" |} = "a>c@1.0.0".
Proof.
  intros Hmaj Hact Hv Hseg.
  pose proof (indexOf_absent _ _ Hseg) as Hidx.
  split; [done|]. split; [|reflexivity].
  destruct (exists_last (split_nonempty ">" (path v))) as (init & last & Hsplit).
  exists init, last.
  assert (E : update_entry (module (obj a)) (target (obj a)) v
              = JS.join ">" (init ++ [at_spec (module (obj a)) (target (obj a))])).
  { unfold update_entry. cbv zeta. rewrite Hidx, slice_0_m1, Hsplit.
    by rewrite removelast_last. }
  repeat split; [done| |done|].
  - rewrite <- Hsplit. symmetry. apply (join_split ">").
  - rewrite step_update by done. cbn [update].
    apply fold_add_In. right. exists v. by split.
Qed.

Lemma C7_update_path_without_module_witness :
  In "a>c@1.0.0"
     (update (classify_step empty_plan
                {| ref := 0;
                   obj := {| module := "c"; target := "1.0.0";
                             action := "update"; isMajor := false;
                             resolves := [{| path := "a>b" |}] |} |})).
Proof.
  destruct (C7_update_path_without_module empty_plan
              {| ref := 0;
                 obj := {| module := "c"; target := "1.0.0";
                           action := "update"; isMajor := false;
                           resolves := [{| path := "a>b" |}] |} |}
              {| path := "a>b" |} eq_refl eq_refl (or_introl eq_refl))
    as (_ & (init & last & _ & _ & E & Hin) & _).
  - simpl. intros [H|[H|[]]]; discriminate.
  - rewrite <- E in Hin. exact Hin.
Defined.

(** Two [review] actions parsed from the report are two objects; a [Set]
    compares objects by reference, so both are kept although their
    contents are identical. *)
Lemma C6_review_keeps_equal_contents :
  let r := {| module := "left-pad"; target := "1.3.0"; action := "review";
              isMajor := false; resolves := [{| path := "app>left-pad" |}] |} in
  review_entries_with r (classify [ {| ref := 0; obj := r |};
                                    {| ref := 1; obj := r |} ]) = 2%nat
  /\ review_entries_with r (classify [ {| ref := 0; obj := r |};
                                       {| ref := 1; obj := r |} ]) <> 1%nat.
Proof. split; [reflexivity | discriminate]. Qed.

(** C6 (amended): no bucket holds a duplicate; a string contributed to
    [install], [major] or [update] occurs there exactly once however many
    actions or vulnerabilities produce it, and [review] holds exactly one
    entry per action object (objects are compared by reference, not by
    contents). *)
Theorem C6_buckets_deduplicate (l : list ActionRef) (a : ActionRef) :
  In a l ->
  plan_NoDup (classify l)
  /\ (isMajor (obj a) = true ->
      count_occ String.string_dec (major (classify l))
        (at_spec (module (obj a)) (target (obj a))) = 1%nat)
  /\ (isMajor (obj a) = false -> action (obj a) = "install" ->
      count_occ String.string_dec (install (classify l))
        (at_spec (module (obj a)) (target (obj a))) = 1%nat)
  /\ (isMajor (obj a) = false -> action (obj a) = "update" ->
      forall v, In v (resolves (obj a)) ->
      count_occ String.string_dec (update (classify l))
        (update_entry (module (obj a)) (target (obj a)) v) = 1%nat)
  /\ (isMajor (obj a) = false -> action (obj a) = "review" ->
      count_occ Nat.eq_dec (map ref (review (classify l))) (ref a) = 1%nat).
Proof.
  intros Hl.
  pose proof (classify_NoDup l) as Hnd.
  destruct Hnd as (Hi & Hu & Hm & Hr).
  destruct (classify_after_step l a Hl) as (acc & Li & Lu & Lm & Lr).
  split; [by repeat split|].
  repeat split.
  - intros Hmaj. apply NoDup_count_occ'; [by apply NoDup_ListNoDup|]. apply Lm.
    rewrite step_major by done. cbn [major]. apply add_string_In. by left.
  - intros Hmaj Hact. apply NoDup_count_occ'; [by apply NoDup_ListNoDup|]. apply Li.
    rewrite step_install by done. cbn [install]. apply add_string_In. by left.
  - intros Hmaj Hact v Hv. apply NoDup_count_occ'; [by apply NoDup_ListNoDup|]. apply Lu.
    rewrite step_update by done. cbn [update].
    apply fold_add_In. right. exists v. by split.
  - intros Hmaj Hact. apply NoDup_count_occ'; [by apply NoDup_ListNoDup|]. apply Lr.
    rewrite step_review by done. cbn [review]. apply add_ref_In.
Qed.

Lemma C6_buckets_deduplicate_witness :
  let a := {| ref := 0;
              obj := {| module := "minimist"; target := "1.2.6";
                        action := "install"; isMajor := false;
                        resolves := [] |} |} in
  let b := {| ref := 1; obj := obj a |} in
  count_occ String.string_dec (install (classify [a; b])) "minimist@1.2.6" = 1%nat.
Proof.
  intros a b.
  destruct (C6_buckets_deduplicate [a; b] a (or_introl eq_refl))
    as (_ & _ & H & _).
  exact (H eq_refl eq_refl).
Defined.

(** ** Claims about the tail of [auditCmd] *)

Section Orchestration.

(** The warnings that precede the install: only [log.warn] calls. *)
Lemma fix_orchestrate_shape (npm : Npm) (plan : ActionPlan) :
  exists warnings tail,
    fix_orchestrate npm plan = warnings ++ tail
    /\ Forall (fun e => exists m, e = log_warn "audit" m) warnings
    /\ tail =
       if negb (JS.size (update plan) =? 0)%Z
          || negb (JS.size (install plan) =? 0)%Z
       then [ log_notice "audit" "installing"
                (JS.size (install plan) + JS.size (update plan))
                "updated packages with patched vulnerabilities";
              Auditor_run (prefix npm) (config_dry_run npm) (install plan)
                (map (JS.split ">") (update plan)) ]
       else [].
Proof.
  unfold fix_orchestrate.
  eexists (_ ++ _), _. rewrite <- app_assoc. split; [reflexivity|].
  split; [|reflexivity].
  apply Forall_app. split.
  - destruct (JS.size (major plan) =? 0)%Z; [constructor|].
    repeat constructor; eauto.
  - destruct (JS.size (review plan) =? 0)%Z; [constructor|].
    repeat constructor; eauto.
Qed.

Lemma size_zero {A} (s : JS.Set_ A) : (JS.size s =? 0)%Z = true <-> s = [].
Proof.
  unfold JS.size. rewrite Z.eqb_eq. destruct s; simpl; [done|]. split; [lia|done].
Qed.

End Orchestration.

(** For the single [update] action on [lodash] the installer is given no
    install argument at all: the specifier goes in the deep arguments
    only, with its ancestor [app]. *)
Lemma C2_update_is_not_an_install_arg :
  reinstaller_calls
    (snd (on_audit_result
            {| prefix := "/app"; config_registry := "https://registry.npmjs.org/";
               config_dry_run := false |}
            ["fix"]
            {| actions :=
                 Some [ {| ref := 0;
                           obj := {| module := "lodash"; target := "4.17.21";
                                     action := "update"; isMajor := false;
                                     resolves := [{| path := "app>lodash" |}] |} |} ];
               metadata := {| vulnerabilities :=
                                {| low := 0; moderate := 0; high := 1;
                                   critical := 0 |} |} |}
            {| exitCode := None |}))
  = [ ([], [["app"; "lodash@4.17.21"]]) ]
  /\ reinstaller_calls
    (snd (on_audit_result
            {| prefix := "/app"; config_registry := "https://registry.npmjs.org/";
               config_dry_run := false |}
            ["fix"]
            {| actions :=
                 Some [ {| ref := 0;
                           obj := {| module := "lodash"; target := "4.17.21";
                                     action := "update"; isMajor := false;
                                     resolves := [{| path := "app>lodash" |}] |} |} ];
               metadata := {| vulnerabilities :=
                                {| low := 0; moderate := 0; high := 1;
                                   critical := 0 |} |} |}
            {| exitCode := None |}))
  <> [ (["lodash@4.17.21"], [["app"; "lodash@4.17.21"]]) ].
Proof. split; [reflexivity | discriminate]. Qed.

(** C2 (amended): in fix mode, when the [install] set or the [update] set
    is not empty, the run logs the notice with count
    [install.size + update.size] and then constructs and runs one
    [Auditor], with the members of [install] alone as its install
    arguments and every member of [update], split on [>], as its deep
    arguments; before that it only logs warnings. *)
Theorem C2_fix_invokes_reinstaller (npm : Npm) (args : list string)
    (auditResult : AuditResult) (proc : Process) :
  args !! 0%nat = Some "fix" ->
  install (classify (default [] (actions auditResult))) <> []
  \/ update (classify (default [] (actions auditResult))) <> [] ->
  let plan := classify (default [] (actions auditResult)) in
  exists warnings,
    snd (on_audit_result npm args auditResult proc)
    = warnings ++
      [ log_notice "audit" "installing"
          (JS.size (install plan) + JS.size (update plan))
          "updated packages with patched vulnerabilities";
        Auditor_run (prefix npm) (config_dry_run npm) (JS.spread (install plan))
          (map (JS.split ">") (JS.spread (update plan))) ]
    /\ Forall (fun e => exists m, e = log_warn "audit" m) warnings
    /\ reinstaller_calls (snd (on_audit_result npm args auditResult proc))
       = [ (JS.spread (install plan),
            map (JS.split ">") (JS.spread (update plan))) ].
Proof.
  intros Hfix Hne plan. unfold on_audit_result.
  destruct (decide (args !! 0%nat = Some "fix")) as [_|]; [|done].
  cbn [snd]. fold plan.
  destruct (fix_orchestrate_shape npm plan) as (ws & tl & -> & Hws & ->).
  assert (Hc : negb (JS.size (update plan) =? 0)%Z
               || negb (JS.size (install plan) =? 0)%Z = true).
  { apply orb_true_iff. destruct Hne as [Hne|Hne]; [right|left];
      apply negb_true_iff, not_true_is_false;
      intros E; apply size_zero in E; done. }
  rewrite Hc. exists ws. repeat split; [done|].
  clear -Hws. induction Hws as [|e ws (m & ->) _ IH]; [reflexivity|exact IH].
Qed.

Lemma C2_fix_invokes_reinstaller_witness :
  let npm := {| prefix := "/app"; config_registry := "https://registry.npmjs.org/";
                config_dry_run := false |} in
  let r := {| actions :=
                Some [ {| ref := 0;
                          obj := {| module := "lodash"; target := "4.17.21";
                                    action := "update"; isMajor := false;
                                    resolves := [{| path := "app>lodash" |}] |} |};
                       {| ref := 1;
                          obj := {| module := "minimist"; target := "1.2.6";
                                    action := "install"; isMajor := false;
                                    resolves := [{| path := "minimist" |}] |} |} ];
              metadata := {| vulnerabilities :=
                               {| low := 0; moderate := 0; high := 2;
                                  critical := 0 |} |} |} in
  reinstaller_calls (snd (on_audit_result npm ["fix"] r {| exitCode := None |}))
  = [ (["minimist@1.2.6"], [["app"; "lodash@4.17.21"]]) ].
Proof.
  intros npm r.
  destruct (C2_fix_invokes_reinstaller npm ["fix"] r {| exitCode := None |}
              eq_refl) as (ws & _ & _ & H).
  - left. simpl. discriminate.
  - exact H.
Defined.

(** C8: when the report request fails with status code 404, or 500 or
    more, the run fails with a new error of code [ENOAUDIT] whose message
    names the configured registry and whose [wrapped] is the original
    error; every other failure is rethrown as it is. *)
Theorem C8_registry_without_audit (npm : Npm) (args : list string)
    (err : JsError) (proc : Process) :
  (forall c, statusCode err = Some c -> (c = 404 \/ 500 <= c)%Z ->
     auditCmd_tail npm args (Throw err) proc
     = (Throw {| ctor := "Error";
                 message := "Your configured registry (" +:+ config_registry npm
                            +:+ ") does not support audit requests.";
                 code := Some "ENOAUDIT";
                 statusCode := None;
                 wrapped := Some err |},
        proc))
  /\ ((forall c, statusCode err = Some c -> (c <> 404 /\ c < 500)%Z) ->
      auditCmd_tail npm args (Throw err) proc = (Throw err, proc)).
Proof.
  unfold auditCmd_tail, on_submit_error. split.
  - intros c Hc Hr. rewrite Hc.
    assert (E : (c =? 404)%Z || (500 <=? c)%Z = true).
    { apply orb_true_iff. destruct Hr; [left; by apply Z.eqb_eq
                                       |right; by apply Z.leb_le]. }
    by rewrite E.
  - intros Hother. destruct (statusCode err) as [c|]; [|done].
    destruct (Hother c eq_refl) as [H1 H2].
    assert (E : (c =? 404)%Z || (500 <=? c)%Z = false).
    { apply orb_false_iff. split; [by apply Z.eqb_neq | by apply Z.leb_gt]. }
    by rewrite E.
Qed.

Lemma C8_registry_without_audit_witness :
  let npm := {| prefix := "/app"; config_registry := "https://r.example/";
                config_dry_run := false |} in
  let e503 := {| ctor := "Error"; message := "Service Unavailable";
                 code := Some "E503"; statusCode := Some 503%Z;
                 wrapped := None |} in
  let e401 := {| ctor := "Error"; message := "Unauthorized";
                 code := Some "E401"; statusCode := Some 401%Z;
                 wrapped := None |} in
  fst (auditCmd_tail npm [] (Throw e503) {| exitCode := None |})
  = Throw {| ctor := "Error";
             message := "Your configured registry (https://r.example/) does not support audit requests.";
             code := Some "ENOAUDIT"; statusCode := None;
             wrapped := Some e503 |}
  /\ fst (auditCmd_tail npm [] (Throw e401) {| exitCode := None |}) = Throw e401.
Proof.
  intros npm e503 e401. split.
  - destruct (C8_registry_without_audit npm [] e503 {| exitCode := None |})
      as [H _].
    rewrite (H 503%Z); [reflexivity | reflexivity | right; lia].
  - destruct (C8_registry_without_audit npm [] e401 {| exitCode := None |})
      as [_ H].
    rewrite H; [reflexivity|].
    intros c Hc. injection Hc as <-. lia.
Defined.

(** C9: without the [fix] argument, a report whose low, moderate, high and
    critical counts sum to more than zero sets [process.exitCode] to 1; when
    the four counts are zero [process.exitCode] is not assigned, so a
    process that had none still has none. *)
Theorem C9_report_exit_code (npm : Npm) (args : list string)
    (auditResult : AuditResult) (proc : Process) :
  args !! 0%nat <> Some "fix" ->
  let v := vulnerabilities (metadata auditResult) in
  ((0 < low v + moderate v + high v + critical v)%Z ->
     exitCode (fst (on_audit_result npm args auditResult proc)) = Some 1%Z)
  /\ (low v = 0%Z -> moderate v = 0%Z -> high v = 0%Z -> critical v = 0%Z ->
      fst (on_audit_result npm args auditResult proc) = proc
      /\ (exitCode proc = None ->
          exitCode (fst (on_audit_result npm args auditResult proc)) = None)).
Proof.
  intros Hreport v. unfold on_audit_result.
  destruct (decide (args !! 0%nat = Some "fix")) as [|_]; [done|].
  cbn [fst]. fold v. split.
  - intros Hpos. apply Z.ltb_lt in Hpos. by rewrite Hpos.
  - intros -> -> -> ->. simpl. done.
Qed.

Lemma C9_report_exit_code_witness :
  let npm := {| prefix := "/app"; config_registry := "https://r.example/";
                config_dry_run := false |} in
  let report m := {| actions := None;
                     metadata := {| vulnerabilities :=
                                      {| low := 0; moderate := m; high := 0;
                                         critical := 0 |} |} |} in
  exitCode (fst (on_audit_result npm [] (report 1%Z) {| exitCode := None |}))
  = Some 1%Z
  /\ exitCode (fst (on_audit_result npm [] (report 0%Z) {| exitCode := None |}))
     = None.
Proof.
  intros npm report. split.
  - destruct (C9_report_exit_code npm [] (report 1%Z) {| exitCode := None |})
      as [H _]; [discriminate|].
    apply H. simpl. lia.
  - destruct (C9_report_exit_code npm [] (report 0%Z) {| exitCode := None |})
      as [_ H]; [discriminate|].
    destruct (H eq_refl eq_refl eq_refl eq_refl) as [_ H']. by apply H'.
Defined.

(** ** Claims about the [Auditor] *)

(** C10: both overriding lifecycle methods call their callback at once
    with no error, for every installer state and callback: the run
    continues exactly as the callback does, and no script is run that the
    callback does not run itself. *)
Theorem C10_no_top_level_lifecycles (this : Auditor) (cb : Callback) :
  runPreinstallTopLevelLifecycles this cb = cb None
  /\ runPostinstallTopLevelLifecycles this cb = cb None
  /\ (forall stage, In (run_script stage) (runPreinstallTopLevelLifecycles this cb)
                    -> In (run_script stage) (cb None))
  /\ (forall stage, In (run_script stage) (runPostinstallTopLevelLifecycles this cb)
                    -> In (run_script stage) (cb None)).
Proof. repeat split; intros stage H; exact H. Qed.

Lemma C10_no_top_level_lifecycles_witness :
  let this := new_Auditor "/app" false [] None 0 in
  runPreinstallTopLevelLifecycles this (fun _ => []) = []
  /\ runPostinstallTopLevelLifecycles this (fun _ => []) = [].
Proof.
  intros this.
  destruct (C10_no_top_level_lifecycles this (fun _ => [])) as (H1 & H2 & _).
  split; [exact H1 | exact H2].
Defined.

(** ** The shrinkwrap patcher *)

Section Patcher.

Variable npa : string -> Result Spec.

Lemma requires_find_undefined (nm : option string) (h : gmap loc Node) :
  requires_find None nm h = (Throw (TypeError "requires"), h).
Proof. reflexivity. Qed.

Lemma requires_find_node (p : loc) (n : Node) (nm : option string)
    (h : gmap loc Node) :
  h !! p = Some n ->
  requires_find (Some p) nm h =
    (match requires n with
     | Some rs => find_by_name h nm rs
     | None => Throw (TypeError "find")
     end, h).
Proof.
  intros Hp. unfold requires_find, bind, deref. rewrite Hp. cbn [snd].
  by destruct (requires n).
Qed.

(** Looking a child up reads the heap and leaves it as it is. *)
Lemma requires_find_heap (acc : option loc) (nm : option string)
    (h : gmap loc Node) :
  snd (requires_find acc nm h) = h.
Proof.
  destruct acc as [p|]; [|done].
  destruct (h !! p) as [n|] eqn:Hp.
  - by rewrite (requires_find_node p n).
  - unfold requires_find, bind, deref. by rewrite Hp.
Qed.

(** Away from the index [this._deepArgs.length - 1] a step is a lookup. *)
Lemma patch_step_lookup (this : Auditor) (acc : option loc) (child : string)
    (i : nat) (h : gmap loc Node) :
  Z.of_nat i <> (Z.of_nat (length (_deepArgs this)) - 1)%Z ->
  patch_step npa this acc child i h = requires_find acc (Some child) h.
Proof.
  intros Hi. unfold patch_step.
  apply Z.eqb_neq in Hi. rewrite Hi. reflexivity.
Qed.

(** At that index the segment is parsed and the child with the parsed
    name is stripped, then the lookup of the raw segment follows. *)
Lemma patch_step_strip (this : Auditor) (acc : option loc) (child : string)
    (i : nat) (h : gmap loc Node) (spec : Spec) (t : loc) (n : Node) :
  Z.of_nat i = (Z.of_nat (length (_deepArgs this)) - 1)%Z ->
  npa child = Ok spec ->
  fst (requires_find acc (spec_name spec) h) = Ok (Some t) ->
  h !! t = Some n ->
  patch_step npa this acc child i h
  = requires_find acc (Some child) (<[t := strip spec n]> h).
Proof.
  intros Hi Hspec Hfind Ht. unfold patch_step.
  apply Z.eqb_eq in Hi. rewrite Hi. unfold bind at 1 2. unfold lift.
  rewrite Hspec. unfold bind at 1.
  pose proof (requires_find_heap acc (spec_name spec) h) as Hh.
  destruct (requires_find acc (spec_name spec) h) as [r h'].
  cbn [fst snd] in Hfind, Hh. subst r h'.
  unfold bind, deref, store. rewrite Ht. reflexivity.
Qed.

(** When the parse throws, or the lookup of the parsed name throws or
    finds no child, the step throws and nothing was written. *)
Lemma patch_step_parse_throws (this : Auditor) (acc : option loc)
    (child : string) (i : nat) (h : gmap loc Node) (e : JsError) :
  Z.of_nat i = (Z.of_nat (length (_deepArgs this)) - 1)%Z ->
  npa child = Throw e ->
  patch_step npa this acc child i h = (Throw e, h).
Proof.
  intros Hi Hspec. unfold patch_step.
  apply Z.eqb_eq in Hi. rewrite Hi. unfold bind at 1 2. unfold lift.
  by rewrite Hspec.
Qed.

Lemma patch_step_no_target (this : Auditor) (acc : option loc)
    (child : string) (i : nat) (h : gmap loc Node) (spec : Spec) :
  Z.of_nat i = (Z.of_nat (length (_deepArgs this)) - 1)%Z ->
  npa child = Ok spec ->
  fst (requires_find acc (spec_name spec) h) = Ok None ->
  patch_step npa this acc child i h = (Throw (TypeError "version"), h).
Proof.
  intros Hi Hspec Hfind. unfold patch_step.
  apply Z.eqb_eq in Hi. rewrite Hi. unfold bind at 1 2. unfold lift.
  rewrite Hspec. unfold bind at 1.
  pose proof (requires_find_heap acc (spec_name spec) h) as Hh.
  destruct (requires_find acc (spec_name spec) h) as [r h'].
  cbn [fst snd] in Hfind, Hh. by subst r h'.
Qed.

Lemma patch_step_find_throws (this : Auditor) (acc : option loc)
    (child : string) (i : nat) (h : gmap loc Node) (spec : Spec)
    (e : JsError) :
  Z.of_nat i = (Z.of_nat (length (_deepArgs this)) - 1)%Z ->
  npa child = Ok spec ->
  fst (requires_find acc (spec_name spec) h) = Throw e ->
  patch_step npa this acc child i h = (Throw e, h).
Proof.
  intros Hi Hspec Hfind. unfold patch_step.
  apply Z.eqb_eq in Hi. rewrite Hi. unfold bind at 1 2. unfold lift.
  rewrite Hspec. unfold bind at 1.
  pose proof (requires_find_heap acc (spec_name spec) h) as Hh.
  destruct (requires_find acc (spec_name spec) h) as [r h'].
  cbn [fst snd] in Hfind, Hh. by subst r h'.
Qed.

(** Once the accumulator is [undefined] nothing more is written, and a
    further segment throws. *)
Lemma reduce_undefined (this : Auditor) (arg : list string) (i : nat)
    (h : gmap loc Node) :
  snd (reduce (patch_step npa this) arg i None h) = h
  /\ (arg <> [] ->
      is_Throw (fst (reduce (patch_step npa this) arg i None h)) = true).
Proof.
  destruct arg as [|child rest]; [done|].
  cbn [reduce]. unfold bind.
  destruct (decide (Z.of_nat i = (Z.of_nat (length (_deepArgs this)) - 1)%Z))
    as [Hi|Hi].
  - destruct (npa child) as [spec|e] eqn:Hspec.
    + by rewrite (patch_step_find_throws this None child i h spec
                    (TypeError "requires") Hi Hspec eq_refl).
    + by rewrite (patch_step_parse_throws this None child i h e Hi Hspec).
  - by rewrite patch_step_lookup, requires_find_undefined.
Qed.

(** A path shorter than the number of paths never reaches the compared
    index: it is looked up and nothing is written. *)
Lemma reduce_below_index (this : Auditor) (arg : list string) (i : nat)
    (acc : option loc) (h : gmap loc Node) :
  (i + length arg < length (_deepArgs this))%nat ->
  snd (reduce (patch_step npa this) arg i acc h) = h.
Proof.
  revert i acc. induction arg as [|child rest IH]; intros i acc Hlen; [done|].
  cbn [reduce length] in *. unfold bind.
  rewrite patch_step_lookup by lia.
  pose proof (requires_find_heap acc (Some child) h) as Hh.
  destruct (requires_find acc (Some child) h) as [[acc'|e] h'];
    cbn [snd] in Hh; subst h'; [|done].
  apply IH. lia.
Qed.

Lemma patch_path_shorter_than_count (this : Auditor) (arg : list string)
    (h : gmap loc Node) :
  (length arg < length (_deepArgs this))%nat ->
  snd (patch_path npa this arg h) = h.
Proof. intros Hlen. by apply reduce_below_index. Qed.

(** Before the compared index the reduce follows [descend]. *)
Lemma reduce_descend (this : Auditor) (pre rest : list string) (i : nat)
    (q p : loc) (h : gmap loc Node) :
  (i + length pre < length (_deepArgs this))%nat ->
  descend h q pre = Some p ->
  reduce (patch_step npa this) (pre ++ rest) i (Some q) h
  = reduce (patch_step npa this) rest (i + length pre) (Some p) h.
Proof.
  revert i q. induction pre as [|nm pre IH]; intros i q Hlen Hd.
  - cbn in Hd |- *. injection Hd as ->. by rewrite Nat.add_0_r.
  - cbn [descend] in Hd. cbn [app reduce length] in *. unfold bind at 1.
    rewrite patch_step_lookup by lia.
    pose proof (requires_find_heap (Some q) (Some nm) h) as Hh.
    destruct (requires_find (Some q) (Some nm) h) as [[[c|]|e] h'];
      cbn [fst snd] in Hd, Hh; subst; try done.
    rewrite (IH (S i) c) by (done || lia).
    f_equal. lia.
Qed.

(** When the path is exactly as long as there are paths, the compared
    index is the terminal one and the patcher does what it is meant to:
    it descends by exact names, finds the child named by the parsed last
    segment and strips it, writing nowhere else. *)
Lemma patch_path_at_agreeing_length (this : Auditor) (pre : list string)
    (last : string) (h : gmap loc Node) (p t : loc) (spec : Spec) (n : Node) :
  length (pre ++ [last]) = length (_deepArgs this) ->
  descend h (idealTree this) pre = Some p ->
  npa last = Ok spec ->
  fst (requires_find (Some p) (spec_name spec) h) = Ok (Some t) ->
  h !! t = Some n ->
  snd (patch_path npa this (pre ++ [last]) h) = <[t := strip spec n]> h
  /\ snd (patch_path npa this (pre ++ [last]) h) !! t
     = Some {| name := name n; version := fetchSpec spec; from := None;
               resolved := None; requires := None; integrity := None;
               package_shrinkwrap := package_shrinkwrap n |}
  /\ forall l, l <> t ->
       snd (patch_path npa this (pre ++ [last]) h) !! l = h !! l.
Proof.
  intros Hlen Hd Hspec Hfind Ht. rewrite length_app in Hlen. cbn in Hlen.
  assert (E : snd (patch_path npa this (pre ++ [last]) h)
              = <[t := strip spec n]> h).
  { unfold patch_path. rewrite (reduce_descend this pre [last] 0 _ p) by (done || lia).
    cbn [reduce]. unfold bind.
    rewrite (patch_step_strip this (Some p) last _ h spec t n) by (done || lia).
    pose proof (requires_find_heap (Some p) (Some last) (<[t:=strip spec n]> h))
      as Hh.
    by destruct (requires_find (Some p) (Some last) (<[t:=strip spec n]> h))
      as [[?|?] ?]. }
  rewrite E. repeat split.
  - by rewrite lookup_insert_eq.
  - intros l Hl. by rewrite lookup_insert_ne.
Qed.


(** [loadShrinkwrap] around the patcher: without lockfile data nothing
    is patched; a throw of the patcher ends the method before
    [inflateShrinkwrap]; otherwise the patched tree is inflated. *)
Section LoadShrinkwrap.

Variable readShrinkwrap : loc -> M unit.
Variable inflateShrinkwrap : loc -> option nat -> M unit.

Lemma loadShrinkwrap_without_lockfile (this : Auditor)
    (h h' : gmap loc Node) (n : Node) :
  readShrinkwrap (idealTree this) h = (Ok tt, h') ->
  h' !! idealTree this = Some n ->
  package_shrinkwrap n = None ->
  loadShrinkwrap npa readShrinkwrap inflateShrinkwrap this h = (Ok tt, h').
Proof.
  intros Hread Hroot Hsw. unfold loadShrinkwrap, bind, deref.
  rewrite Hread, Hroot. cbn [snd]. by rewrite Hsw.
Qed.

Lemma loadShrinkwrap_patch_throws (this : Auditor)
    (h h' h'' : gmap loc Node) (n : Node) (sw : nat) (e : JsError) :
  readShrinkwrap (idealTree this) h = (Ok tt, h') ->
  h' !! idealTree this = Some n ->
  package_shrinkwrap n = Some sw ->
  apply_deepArgs npa this h' = (Throw e, h'') ->
  loadShrinkwrap npa readShrinkwrap inflateShrinkwrap this h = (Throw e, h'').
Proof.
  intros Hread Hroot Hsw Hpatch. unfold loadShrinkwrap, bind, deref.
  rewrite Hread, Hroot. cbn [snd]. by rewrite Hsw, Hpatch.
Qed.

Lemma loadShrinkwrap_patched (this : Auditor)
    (h h' h'' : gmap loc Node) (n n' : Node) (sw : nat) :
  readShrinkwrap (idealTree this) h = (Ok tt, h') ->
  h' !! idealTree this = Some n ->
  package_shrinkwrap n = Some sw ->
  apply_deepArgs npa this h' = (Ok tt, h'') ->
  h'' !! idealTree this = Some n' ->
  loadShrinkwrap npa readShrinkwrap inflateShrinkwrap this h
  = inflateShrinkwrap (idealTree this) (package_shrinkwrap n') h''.
Proof.
  intros Hread Hroot Hsw Hpatch Hroot'. unfold loadShrinkwrap, bind, deref.
  rewrite Hread, Hroot. cbn [snd]. by rewrite Hsw, Hpatch, Hroot'.
Qed.

End LoadShrinkwrap.

End Patcher.

(** With as many paths as the path has segments the terminal node is the
    one stripped: [b] gets the version of [b@2.0.0] and loses its
    resolution, [a] and the root stay as they were. *)
Example patch_path_two_paths_two_segments :
  let this := new_Auditor "/app" false []
                (Some (Some [["a"; "b@2.0.0"]; ["y"; "z@1.0.0"]])) 0 in
  snd (patch_path npa_model this ["a"; "b@2.0.0"] tree_ab)
  = <[2%nat := {| name := "b"; version := Some "2.0.0"; from := None;
                  resolved := None; requires := None; integrity := None;
                  package_shrinkwrap := None |}]> tree_ab.
Proof.
  intros this.
  destruct (patch_path_at_agreeing_length npa_model this ["a"] "b@2.0.0"
              tree_ab 1%nat 2%nat
              {| spec_name := Some "b"; fetchSpec := Some "2.0.0" |}
              (example_node "b" "1.0.0" [] None)
              eq_refl eq_refl eq_refl eq_refl eq_refl) as [H _].
  exact H.
Defined.


(** C1: with the single deep-arg path [a > b@2.0.0] the index compared
    with is [this._deepArgs.length - 1 = 0], so the first segment [a] is
    the one parsed and stripped and the terminal segment is not: the run
    throws, [b] keeps all its fields, and whenever the parse of [a] names
    [a] it is [a] that loses its fields. *)
Theorem C1_patches_at_path_count_index (npa : string -> Result Spec) :
  let this := new_Auditor "/app" false [] (Some (Some [["a"; "b@2.0.0"]])) 0 in
  is_Throw (fst (apply_deepArgs npa this tree_ab)) = true
  /\ snd (apply_deepArgs npa this tree_ab) !! 2%nat = tree_ab !! 2%nat
  /\ (forall fs, npa "a" = Ok {| spec_name := Some "a"; fetchSpec := fs |} ->
      apply_deepArgs npa this tree_ab
      = (Throw (TypeError "find"),
         <[1%nat := {| name := "a"; version := fs; from := None;
                       resolved := None; requires := None; integrity := None;
                       package_shrinkwrap := None |}]> tree_ab)).
Proof.
  intros this.
  assert (H0 : tree_ab !! 0%nat
               = Some (example_node "app" "1.0.0" [1%nat] (Some 0%nat)))
    by reflexivity.
  assert (H1 : tree_ab !! 1%nat = Some (example_node "a" "1.0.0" [2%nat] None))
    by reflexivity.
  assert (Hi : Z.of_nat 0 = (Z.of_nat (length (_deepArgs this)) - 1)%Z)
    by reflexivity.
  assert (Hi' : Z.of_nat 1 <> (Z.of_nat (length (_deepArgs this)) - 1)%Z)
    by discriminate.
  assert (Hfind : forall nm,
             requires_find (Some 0%nat) nm tree_ab
             = (if decide (Some "a" = nm) then Ok (Some 1%nat) else Ok None,
                tree_ab)).
  { intros nm. rewrite (requires_find_node _ _ _ _ H0).
    cbn [requires example_node find_by_name]. rewrite H1.
    cbn [name example_node]. by destruct (decide (Some "a" = nm)). }
  assert (Hrun : forall r h,
             patch_step npa this (Some 0%nat) "a" 0 tree_ab = (Throw r, h) ->
             apply_deepArgs npa this tree_ab = (Throw r, h)).
  { intros r h E. unfold apply_deepArgs.
    change (_deepArgs this) with [["a"; "b@2.0.0"]].
    unfold forEach, patch_path, reduce, bind.
    change (idealTree this) with 0%nat. by rewrite E. }
  assert (Hstrip : forall spec,
             npa "a" = Ok spec -> spec_name spec = Some "a" ->
             apply_deepArgs npa this tree_ab
             = (Throw (TypeError "find"),
                <[1%nat := strip spec (example_node "a" "1.0.0" [2%nat] None)]>
                  tree_ab)).
  { intros spec Hspec Hname.
    unfold apply_deepArgs.
    change (_deepArgs this) with [["a"; "b@2.0.0"]].
    unfold forEach, patch_path, reduce, bind.
    change (idealTree this) with 0%nat.
    rewrite (patch_step_strip npa this (Some 0%nat) "a" 0%nat tree_ab spec 1%nat
               (example_node "a" "1.0.0" [2%nat] None) Hi Hspec);
      [| by rewrite Hfind, Hname | exact H1].
    erewrite requires_find_node
      by (rewrite lookup_insert_ne by done; exact H0).
    cbn [requires example_node find_by_name].
    rewrite lookup_insert_eq. cbn [name strip example_node].
    destruct (decide (Some "a" = Some "a")); [|done].
    rewrite patch_step_lookup by exact Hi'.
    erewrite requires_find_node by apply lookup_insert_eq.
    reflexivity. }
  assert (Hmain : is_Throw (fst (apply_deepArgs npa this tree_ab)) = true
                  /\ snd (apply_deepArgs npa this tree_ab) !! 2%nat
                     = tree_ab !! 2%nat).
  { destruct (npa "a") as [spec|e] eqn:Hspec.
    - destruct (decide (Some "a" = spec_name spec)) as [Hname|Hname].
      + rewrite (Hstrip spec eq_refl (eq_sym Hname)). cbn [fst snd is_Throw].
        split; [done|]. by rewrite lookup_insert_ne.
      + rewrite (Hrun (TypeError "version") tree_ab); [done|].
        apply (patch_step_no_target npa this _ _ _ _ spec Hi Hspec).
        rewrite Hfind. by destruct (decide (Some "a" = spec_name spec)).
    - rewrite (Hrun e tree_ab); [done|].
      by apply patch_step_parse_throws. }
  destruct Hmain as [Ht Hb]. repeat split; [done..|].
  intros fs Hspec. by rewrite (Hstrip _ Hspec eq_refl).
Qed.

Lemma C1_patches_at_path_count_index_witness :
  apply_deepArgs npa_model
    (new_Auditor "/app" false [] (Some (Some [["a"; "b@2.0.0"]])) 0) tree_ab
  = (Throw (TypeError "find"),
     <[1%nat := {| name := "a"; version := Some "latest"; from := None;
                   resolved := None; requires := None; integrity := None;
                   package_shrinkwrap := None |}]> tree_ab).
Proof.
  destruct (C1_patches_at_path_count_index npa_model) as (_ & _ & H).
  exact (H (Some "latest") eq_refl).
Defined.

(** C3: with the two deep-arg paths [x@1.0.0] and [y@1.0.0] and a root
    that requires [y] only, the index compared with is
    [this._deepArgs.length - 1 = 1], which no one-segment path reaches:
    the lookup of [x@1.0.0] finds nothing and nothing throws; the tree is
    as it was, [y] unpatched, and [loadShrinkwrap] goes on to inflate
    it. *)
Theorem C3_missing_segment_not_reported (npa : string -> Result Spec)
    (readShrinkwrap : loc -> M unit)
    (inflateShrinkwrap : loc -> option nat -> M unit) (h : gmap loc Node) :
  let this := new_Auditor "/app" false []
                (Some (Some [["x@1.0.0"]; ["y@1.0.0"]])) 0 in
  apply_deepArgs npa this tree_y = (Ok tt, tree_y)
  /\ (readShrinkwrap 0%nat h = (Ok tt, tree_y) ->
      loadShrinkwrap npa readShrinkwrap inflateShrinkwrap this h
      = inflateShrinkwrap 0%nat (Some 0%nat) tree_y).
Proof.
  intros this.
  assert (H0 : tree_y !! 0%nat
               = Some (example_node "app" "1.0.0" [1%nat] (Some 0%nat)))
    by reflexivity.
  assert (H1 : tree_y !! 1%nat = Some (example_node "y" "1.0.0" [] None))
    by reflexivity.
  assert (Hi : Z.of_nat 0 <> (Z.of_nat (length (_deepArgs this)) - 1)%Z)
    by discriminate.
  assert (Hfind : forall seg, seg <> "y" ->
             patch_step npa this (Some 0%nat) seg 0 tree_y = (Ok None, tree_y)).
  { intros seg Hseg. rewrite patch_step_lookup by exact Hi.
    rewrite (requires_find_node _ _ _ _ H0).
    cbn [requires example_node find_by_name]. rewrite H1.
    cbn [name example_node].
    destruct (decide (Some "y" = Some seg)) as [E|_]; [congruence|done]. }
  assert (Hpatch : apply_deepArgs npa this tree_y = (Ok tt, tree_y)).
  { unfold apply_deepArgs.
    change (_deepArgs this) with [["x@1.0.0"]; ["y@1.0.0"]].
    unfold forEach, patch_path, reduce, bind.
    change (idealTree this) with 0%nat.
    rewrite !Hfind by discriminate. reflexivity. }
  split; [exact Hpatch|].
  intros Hread.
  by rewrite (loadShrinkwrap_patched npa readShrinkwrap inflateShrinkwrap this
                h tree_y tree_y _ _ 0%nat Hread H0 eq_refl Hpatch H0).
Qed.

Lemma C3_missing_segment_not_reported_witness :
  loadShrinkwrap npa_model (fun _ _ => (Ok tt, tree_y)) (fun _ _ => ret tt)
    (new_Auditor "/app" false []
       (Some (Some [["x@1.0.0"]; ["y@1.0.0"]])) 0) ∅
  = (Ok tt, tree_y).
Proof.
  destruct (C3_missing_segment_not_reported npa_model
              (fun _ _ => (Ok tt, tree_y)) (fun _ _ => ret tt) ∅) as [_ H].
  exact (H eq_refl).
Defined.

(** * Further properties of [lib/audit.js] *)

(** ** What the buckets hold *)

Section ClassifierMembers.

Lemma add_ref_members (a : ActionRef) (s : JS.Set_ ActionRef) (r : nat) :
  In r (map ref (JS.add a s)) <-> r = ref a \/ In r (map ref s).
Proof.
  unfold JS.add. destruct (JS.has a s) eqn:E.
  - apply has_ref in E. split; [by right|]. by intros [->|].
  - rewrite map_app, in_app_iff. simpl. intuition.
Qed.

(** The five branches of the callback. *)
Lemma classify_step_cases (acc : ActionPlan) (a : ActionRef) :
  (isMajor (obj a) = true)
  \/ (isMajor (obj a) = false /\ action (obj a) = "install")
  \/ (isMajor (obj a) = false /\ action (obj a) = "update")
  \/ (isMajor (obj a) = false /\ action (obj a) = "review")
  \/ (isMajor (obj a) = false /\ action (obj a) <> "install"
      /\ action (obj a) <> "update" /\ action (obj a) <> "review"
      /\ classify_step acc a = acc).
Proof.
  unfold classify_step.
  destruct (isMajor (obj a)); [by left|right].
  destruct (String.eqb_spec (action (obj a)) "install"); [by left|right].
  destruct (String.eqb_spec (action (obj a)) "update"); [by left|right].
  destruct (String.eqb_spec (action (obj a)) "review"); [by left|right].
  done.
Qed.

Lemma classify_step_install (acc : ActionPlan) (a : ActionRef) (x : string) :
  In x (install (classify_step acc a))
  <-> In x (install acc) \/ gives_install a x.
Proof.
  unfold gives_install.
  destruct (classify_step_cases acc a)
    as [Hm|[[Hm Ha]|[[Hm Ha]|[[Hm Ha]|(Hm & H1 & H2 & H3 & E)]]]].
  - rewrite step_major by done. cbn [install]. split; [tauto|].
    intros [?|(?&_)]; [done|congruence].
  - rewrite step_install by done. cbn [install]. rewrite add_string_In. tauto.
  - rewrite step_update by done. cbn [install]. split; [tauto|].
    intros [?|(_&?&_)]; [done|congruence].
  - rewrite step_review by done. cbn [install]. split; [tauto|].
    intros [?|(_&?&_)]; [done|congruence].
  - rewrite E. split; [tauto|]. intros [?|(_&?&_)]; [done|congruence].
Qed.

Lemma classify_step_major (acc : ActionPlan) (a : ActionRef) (x : string) :
  In x (major (classify_step acc a)) <-> In x (major acc) \/ gives_major a x.
Proof.
  unfold gives_major.
  destruct (classify_step_cases acc a)
    as [Hm|[[Hm Ha]|[[Hm Ha]|[[Hm Ha]|(Hm & H1 & H2 & H3 & E)]]]].
  - rewrite step_major by done. cbn [major]. rewrite add_string_In. tauto.
  - rewrite step_install by done. cbn [major]. split; [tauto|].
    intros [?|(?&_)]; [done|congruence].
  - rewrite step_update by done. cbn [major]. split; [tauto|].
    intros [?|(?&_)]; [done|congruence].
  - rewrite step_review by done. cbn [major]. split; [tauto|].
    intros [?|(?&_)]; [done|congruence].
  - rewrite E. split; [tauto|]. intros [?|(?&_)]; [done|congruence].
Qed.

Lemma classify_step_update (acc : ActionPlan) (a : ActionRef) (x : string) :
  In x (update (classify_step acc a)) <-> In x (update acc) \/ gives_update a x.
Proof.
  unfold gives_update.
  destruct (classify_step_cases acc a)
    as [Hm|[[Hm Ha]|[[Hm Ha]|[[Hm Ha]|(Hm & H1 & H2 & H3 & E)]]]].
  - rewrite step_major by done. cbn [update]. split; [tauto|].
    intros [?|(?&_)]; [done|congruence].
  - rewrite step_install by done. cbn [update]. split; [tauto|].
    intros [?|(_&?&_)]; [done|congruence].
  - rewrite step_update by done. cbn [update]. rewrite fold_add_In.
    split.
    + intros [?|(v & ? & ?)]; [tauto|]. right. eauto 10.
    + intros [?|(_ & _ & v & ? & ?)]; [tauto|]. right. eauto.
  - rewrite step_review by done. cbn [update]. split; [tauto|].
    intros [?|(_&?&_)]; [done|congruence].
  - rewrite E. split; [tauto|]. intros [?|(_&?&_)]; [done|congruence].
Qed.

Lemma classify_step_review (acc : ActionPlan) (a : ActionRef) (r : nat) :
  In r (map ref (review (classify_step acc a)))
  <-> In r (map ref (review acc)) \/ gives_review a r.
Proof.
  unfold gives_review.
  destruct (classify_step_cases acc a)
    as [Hm|[[Hm Ha]|[[Hm Ha]|[[Hm Ha]|(Hm & H1 & H2 & H3 & E)]]]].
  - rewrite step_major by done. cbn [review]. split; [tauto|].
    intros [?|(?&_)]; [done|congruence].
  - rewrite step_install by done. cbn [review]. split; [tauto|].
    intros [?|(_&?&_)]; [done|congruence].
  - rewrite step_update by done. cbn [review]. split; [tauto|].
    intros [?|(_&?&_)]; [done|congruence].
  - rewrite step_review by done. cbn [review]. rewrite add_ref_members. tauto.
  - rewrite E. split; [tauto|]. intros [?|(_&?&_)]; [done|congruence].
Qed.

(** Folding a step whose members are "what was there, or what this
    action gives". *)
Lemma fold_members {K : Type} (sel : ActionPlan -> list K)
    (gives : ActionRef -> K -> Prop) :
  (forall acc a x, In x (sel (classify_step acc a))
                   <-> In x (sel acc) \/ gives a x) ->
  forall l acc x,
    In x (sel (fold_left classify_step l acc))
    <-> In x (sel acc) \/ exists a, In a l /\ gives a x.
Proof.
  intros Hstep l. induction l as [|a l IH]; intros acc x; cbn [fold_left].
  - split; [tauto|]. intros [?|(?&[]&_)]. done.
  - rewrite IH, Hstep. split.
    + intros [[?|?]|(b&?&?)]; [tauto| |]; right.
      * exists a. split; [by left|done].
      * exists b. split; [by right|done].
    + intros [?|(b&[<-|?]&?)]; [tauto|tauto|]. right. eauto.
Qed.

End ClassifierMembers.

Section ClassifierExtras.

Lemma review_entries_from (l : list ActionRef) (acc : ActionPlan)
    (e : ActionRef) :
  In e (review (fold_left classify_step l acc)) ->
  In e (review acc)
  \/ (In e l /\ isMajor (obj e) = false /\ action (obj e) = "review").
Proof.
  revert acc. induction l as [|a l IH]; intros acc; cbn [fold_left]; [tauto|].
  intros [H|(?&?)]%IH; [|right; split; [by right|done]].
  destruct (classify_step_cases acc a)
    as [Hm|[[Hm Ha]|[[Hm Ha]|[[Hm Ha]|(Hm & H1 & H2 & H3 & E)]]]].
  - rewrite step_major in H by done. by left.
  - rewrite step_install in H by done. by left.
  - rewrite step_update in H by done. by left.
  - rewrite step_review in H by done. cbn [review] in H.
    unfold JS.add in H. destruct (JS.has a (review acc)); [by left|].
    apply in_app_iff in H as [H|[<-|[]]]; [by left|].
    right. split; [by left|done].
  - rewrite E in H. by left.
Qed.

(** Each bucket holds exactly what the actions of its kind give: [major]
    the specifiers of the major actions, [install] those of the other
    [install] actions, [update] one entry for each vulnerability an other
    [update] action resolves, [review] the other [review] actions
    themselves; nothing else enters a bucket, and an action of any other
    kind enters none. *)
Theorem classify_buckets_exact (l : list ActionRef) :
  (forall x, In x (install (classify l))
             <-> exists a, In a l /\ gives_install a x)
  /\ (forall x, In x (major (classify l))
                <-> exists a, In a l /\ gives_major a x)
  /\ (forall x, In x (update (classify l))
                <-> exists a, In a l /\ gives_update a x)
  /\ (forall r, In r (map ref (review (classify l)))
                <-> exists a, In a l /\ gives_review a r)
  /\ (forall e, In e (review (classify l)) ->
                In e l /\ isMajor (obj e) = false /\ action (obj e) = "review").
Proof.
  unfold classify. repeat split.
  - intros H. apply (fold_members install gives_install classify_step_install)
      in H as [[]|H]. exact H.
  - intros H. apply (fold_members install gives_install classify_step_install).
    by right.
  - intros H. apply (fold_members major gives_major classify_step_major)
      in H as [[]|H]. exact H.
  - intros H. apply (fold_members major gives_major classify_step_major).
    by right.
  - intros H. apply (fold_members update gives_update classify_step_update)
      in H as [[]|H]. exact H.
  - intros H. apply (fold_members update gives_update classify_step_update).
    by right.
  - intros H.
    apply (fold_members (fun p => map ref (review p)) gives_review
             classify_step_review) in H as [[]|H]. exact H.
  - intros H.
    apply (fold_members (fun p => map ref (review p)) gives_review
             classify_step_review). by right.
  - by apply review_entries_from in H as [[]|(?&?&?)].
  - by apply review_entries_from in H as [[]|(?&?&?)].
  - by apply review_entries_from in H as [[]|(?&?&?)].
Qed.

Lemma same_members_Permutation {K : Type} (s s' : list K) :
  NoDup s -> NoDup s' -> (forall x, In x s <-> In x s') -> Permutation s s'.
Proof.
  intros Hs Hs' H. apply NoDup_Permutation; [done..|].
  intros x. rewrite !list_elem_of_In. apply H.
Qed.

Lemma members_perm {K : Type} (sel : ActionPlan -> list K)
    (gives : ActionRef -> K -> Prop) (l l' : list ActionRef) :
  (forall acc a x, In x (sel (classify_step acc a))
                   <-> In x (sel acc) \/ gives a x) ->
  sel empty_plan = [] ->
  Permutation l l' ->
  forall x, In x (sel (classify l)) <-> In x (sel (classify l')).
Proof.
  intros Hstep Hempty Hperm x. unfold classify.
  rewrite !(fold_members sel gives Hstep), Hempty.
  split; intros [[]|(a & Ha & Hg)]; right; exists a; split; try done.
  - by apply (Permutation_in _ Hperm).
  - by apply (Permutation_in _ (Permutation_sym Hperm)).
Qed.

(** The order of the actions in the report does not matter to what the
    buckets hold, nor to their sizes: reordering the actions permutes
    each bucket. *)
Theorem classify_order_independent (l l' : list ActionRef) :
  Permutation l l' ->
  (Permutation (install (classify l)) (install (classify l'))
   /\ Permutation (update (classify l)) (update (classify l'))
   /\ Permutation (major (classify l)) (major (classify l'))
   /\ Permutation (map ref (review (classify l)))
                  (map ref (review (classify l'))))
  /\ (JS.size (install (classify l)) = JS.size (install (classify l'))
      /\ JS.size (update (classify l)) = JS.size (update (classify l'))
      /\ JS.size (major (classify l)) = JS.size (major (classify l'))
      /\ JS.size (review (classify l)) = JS.size (review (classify l'))).
Proof.
  intros Hperm.
  destruct (classify_NoDup l) as (Ni & Nu & Nm & Nr).
  destruct (classify_NoDup l') as (Ni' & Nu' & Nm' & Nr').
  assert (Pi : Permutation (install (classify l)) (install (classify l'))).
  { apply same_members_Permutation; [done..|].
    by apply (members_perm install gives_install _ _ classify_step_install). }
  assert (Pu : Permutation (update (classify l)) (update (classify l'))).
  { apply same_members_Permutation; [done..|].
    by apply (members_perm update gives_update _ _ classify_step_update). }
  assert (Pm : Permutation (major (classify l)) (major (classify l'))).
  { apply same_members_Permutation; [done..|].
    by apply (members_perm major gives_major _ _ classify_step_major). }
  assert (Pr : Permutation (map ref (review (classify l)))
                           (map ref (review (classify l')))).
  { apply same_members_Permutation; [done..|].
    by apply (members_perm (fun p => map ref (review p)) gives_review _ _
                classify_step_review). }
  split; [done|]. unfold JS.size.
  rewrite (Permutation_length Pi), (Permutation_length Pu),
    (Permutation_length Pm).
  apply Permutation_length in Pr. rewrite !length_map in Pr. by rewrite Pr.
Qed.

Lemma classify_order_independent_witness :
  Permutation
    (install (classify
       [ {| ref := 0; obj := {| module := "a"; target := "1.0.1";
                               action := "install"; isMajor := false;
                               resolves := [] |} |};
         {| ref := 1; obj := {| module := "b"; target := "2.0.0";
                               action := "install"; isMajor := false;
                               resolves := [] |} |} ]))
    (install (classify
       [ {| ref := 1; obj := {| module := "b"; target := "2.0.0";
                               action := "install"; isMajor := false;
                               resolves := [] |} |};
         {| ref := 0; obj := {| module := "a"; target := "1.0.1";
                               action := "install"; isMajor := false;
                               resolves := [] |} |} ])).
Proof.
  exact (proj1 (proj1 (classify_order_independent _ _ (perm_swap _ _ [])))).
Defined.

(** Actions that are all major or of kind [review] leave [install] and
    [update] empty. *)
Lemma classify_from_members_nil (l : list ActionRef) :
  (forall a, In a l -> isMajor (obj a) = true \/ action (obj a) = "review") ->
  install (classify l) = [] /\ update (classify l) = [].
Proof.
  intros Hall. unfold classify. split.
  - destruct (install (fold_left classify_step l empty_plan)) as [|x s] eqn:E;
      [done|].
    assert (Hx : In x (install (fold_left classify_step l empty_plan)))
      by (rewrite E; by left).
    apply (fold_members install gives_install classify_step_install)
      in Hx as [[]|(a & Ha & Hm & Hk & _)].
    destruct (Hall a Ha); congruence.
  - destruct (update (fold_left classify_step l empty_plan)) as [|x s] eqn:E;
      [done|].
    assert (Hx : In x (update (fold_left classify_step l empty_plan)))
      by (rewrite E; by left).
    apply (fold_members update gives_update classify_step_update)
      in Hx as [[]|(a & Ha & Hm & Hk & _)].
    destruct (Hall a Ha); congruence.
Qed.

End ClassifierExtras.

(** ** Fix mode and report mode *)

Section ModeExtras.

Lemma reinstaller_calls_app (e1 e2 : list Effect) :
  reinstaller_calls (e1 ++ e2) = reinstaller_calls e1 ++ reinstaller_calls e2.
Proof.
  induction e1 as [|e e1 IH]; [done|].
  destruct e; cbn; by rewrite IH.
Qed.

Lemma reinstaller_calls_warnings (ws : list Effect) :
  Forall (fun e => exists m, e = log_warn "audit" m) ws ->
  reinstaller_calls ws = [].
Proof. induction 1 as [|e ws (m & ->) _ IH]; [done|exact IH]. Qed.

Lemma fix_orchestrate_calls (npm : Npm) (plan : ActionPlan) :
  reinstaller_calls (fix_orchestrate npm plan)
  = match install plan, update plan with
    | [], [] => []
    | _, _ => [ (install plan, map (JS.split ">") (update plan)) ]
    end.
Proof.
  destruct (fix_orchestrate_shape npm plan) as (ws & tl & -> & Hws & ->).
  rewrite reinstaller_calls_app, (reinstaller_calls_warnings ws Hws).
  by destruct (install plan), (update plan).
Qed.

(** In fix mode an [Auditor] is constructed at most once, and not at all
    exactly when both [install] and [update] are empty; in particular a
    report of nothing but major and review actions installs nothing. *)
Theorem fix_installs_only_when_fixable (npm : Npm) (args : list string)
    (auditResult : AuditResult) (proc : Process) :
  args !! 0%nat = Some "fix" ->
  let plan := classify (default [] (actions auditResult)) in
  let calls := reinstaller_calls (snd (on_audit_result npm args auditResult proc)) in
  (calls = [] <-> install plan = [] /\ update plan = [])
  /\ (length calls <= 1)%nat
  /\ ((forall a, In a (default [] (actions auditResult)) ->
         isMajor (obj a) = true \/ action (obj a) = "review") ->
      calls = []).
Proof.
  intros Hfix plan calls. subst calls. unfold on_audit_result.
  destruct (decide (args !! 0%nat = Some "fix")) as [_|]; [|done].
  cbn [snd]. fold plan. rewrite fix_orchestrate_calls.
  assert (Hiff : match install plan, update plan with
                 | [], [] => []
                 | _, _ => [(install plan, map (JS.split ">") (update plan))]
                 end = [] <-> install plan = [] /\ update plan = []).
  { destruct (install plan), (update plan); split; (done || by intros [? ?]). }
  split; [exact Hiff|]. split.
  - destruct (install plan), (update plan); cbn; lia.
  - intros Hall. apply Hiff.
    destruct (classify_from_members_nil (default [] (actions auditResult)) Hall)
      as [Hi Hu].
    done.
Qed.

Lemma fix_installs_only_when_fixable_witness :
  reinstaller_calls
    (snd (on_audit_result
            {| prefix := "/app"; config_registry := "https://registry.npmjs.org/";
               config_dry_run := false |}
            ["fix"]
            {| actions :=
                 Some [ {| ref := 0;
                           obj := {| module := "webpack"; target := "5.0.0";
                                     action := "install"; isMajor := true;
                                     resolves := [{| path := "webpack" |}] |} |};
                        {| ref := 1;
                           obj := {| module := "tar"; target := "";
                                     action := "review"; isMajor := false;
                                     resolves := [{| path := "node-gyp>tar" |}] |} |} ];
               metadata := {| vulnerabilities :=
                                {| low := 0; moderate := 1; high := 1;
                                   critical := 0 |} |} |}
            {| exitCode := None |}))
  = [].
Proof.
  apply (fix_installs_only_when_fixable _ ["fix"] _ _ eq_refl).
  intros a [<-|[<-|[]]]; [by left | by right].
Defined.

(** Fix mode leaves [process.exitCode] as it was, whatever the report
    counts, and never prints the report: all it does is warn, announce
    the install and run the [Auditor]. *)
Theorem fix_mode_leaves_exit_code (npm : Npm) (args : list string)
    (auditResult : AuditResult) (proc : Process) :
  args !! 0%nat = Some "fix" ->
  fst (on_audit_result npm args auditResult proc) = proc
  /\ Forall (fun e => (exists m, e = log_warn "audit" m)
                      \/ (exists n, e = log_notice "audit" "installing" n
                                        "updated packages with patched vulnerabilities")
                      \/ (exists a d, e = Auditor_run (prefix npm)
                                            (config_dry_run npm) a d))
       (snd (on_audit_result npm args auditResult proc)).
Proof.
  intros Hfix. unfold on_audit_result.
  destruct (decide (args !! 0%nat = Some "fix")) as [_|]; [|done].
  cbn [fst snd]. split; [done|].
  destruct (fix_orchestrate_shape npm (classify (default [] (actions auditResult))))
    as (ws & tl & -> & Hws & ->).
  apply Forall_app. split.
  - eapply Forall_impl; [exact Hws|]. intros e He. by left.
  - destruct (_ || _); [|constructor].
    constructor; [right; left; eauto|].
    constructor; [right; right; eauto|constructor].
Qed.

Lemma fix_mode_leaves_exit_code_witness :
  fst (on_audit_result
         {| prefix := "/app"; config_registry := "https://registry.npmjs.org/";
            config_dry_run := false |}
         ["fix"]
         {| actions := None;
            metadata := {| vulnerabilities :=
                             {| low := 3; moderate := 0; high := 0;
                                critical := 1 |} |} |}
         {| exitCode := None |})
  = {| exitCode := None |}.
Proof.
  exact (proj1 (fix_mode_leaves_exit_code _ ["fix"] _ _ eq_refl)).
Defined.

End ModeExtras.

(** ** From an update entry to a deep-arg path *)

Section DeepPath.

Lemma contains_append (c : ascii) (a b : string) :
  contains c (a +:+ b) = contains c a || contains c b.
Proof.
  induction a as [|d a IH]; [done|].
  change (String d a +:+ b) with (String d (a +:+ b)).
  cbn [contains]. by rewrite IH, orb_assoc.
Qed.

(** A string without the separator is one segment. *)
Lemma split_one (sep : ascii) (s : string) :
  contains sep s = false -> JS.split sep s = [s].
Proof.
  induction s as [|c r IH]; [done|]. cbn [JS.split contains].
  intros [Hc Hr]%orb_false_iff. rewrite Hc, (IH Hr). done.
Qed.

(** A first segment without the separator is split off whole. *)
Lemma split_cons (sep : ascii) (a b : string) :
  contains sep a = false ->
  JS.split sep (a +:+ String sep b) = a :: JS.split sep b.
Proof.
  induction a as [|c a IH].
  - intros _. change ("" +:+ String sep b) with (String sep b).
    cbn [JS.split]. by rewrite Ascii.eqb_refl.
  - change (String c a +:+ String sep b) with (String c (a +:+ String sep b)).
    cbn [JS.split contains].
    intros [Hc Ha]%orb_false_iff. by rewrite Hc, (IH Ha).
Qed.

(** No segment of a split holds the separator. *)
Lemma split_segments (sep : ascii) (s : string) :
  Forall (fun seg => contains sep seg = false) (JS.split sep s).
Proof.
  induction s as [|c r IH]; cbn [JS.split]; [by repeat constructor|].
  destruct (Ascii.eqb c sep) eqn:E; [by constructor|].
  destruct (JS.split sep r) as [|seg segs].
  - constructor; [|done]. cbn [contains]. by rewrite E.
  - inversion IH; subst. constructor; [|done]. cbn [contains]. by rewrite E.
Qed.

(** Splitting a join of separator-free strings gives them back. *)
Lemma split_join (sep : ascii) (l : list string) :
  l <> [] ->
  Forall (fun seg => contains sep seg = false) l ->
  JS.split sep (JS.join (String sep EmptyString) l) = l.
Proof.
  induction l as [|x l IH]; [done|]. intros _ Hall.
  inversion Hall as [|? ? Hx Hl]; subst.
  destruct l as [|y l].
  - cbn [JS.join]. by apply split_one.
  - rewrite join_cons.
    change (String sep "" +:+ JS.join (String sep "") (y :: l))
      with (String sep (JS.join (String sep "") (y :: l))).
    rewrite split_cons by done. f_equal. by apply IH.
Qed.

Lemma slice_Forall {A} (P : A -> Prop) (i j : Z) (l : list A) :
  Forall P l -> Forall P (JS.slice i j l).
Proof. intros H. unfold JS.slice. by apply Forall_take, Forall_drop. Qed.

Lemma split_update_entry (name version : string) (vuln : Vuln) :
  contains ">" name = false ->
  contains ">" version = false ->
  JS.split ">" (update_entry name version vuln)
  = JS.slice 0 (JS.indexOf name (JS.split ">" (path vuln)))
      (JS.split ">" (path vuln)) ++ [at_spec name version].
Proof.
  intros Hn Hv. unfold update_entry. cbv zeta. apply split_join.
  - by destruct (JS.slice _ _ _).
  - apply Forall_app. split.
    + apply slice_Forall, split_segments.
    + constructor; [|done]. unfold at_spec.
      rewrite !contains_append, Hn, Hv. done.
Qed.

(** The deep-arg path the [Auditor] is given for a vulnerability, which
    is the update entry split on [>] again, is the kept segments of the
    vulnerability's path followed by the one segment [name@version]:
    joining and splitting lose nothing, as long as neither the name nor
    the version holds a [>]. *)
Theorem deep_path_of_update_entry (name version : string) (vuln : Vuln) :
  contains ">" name = false ->
  contains ">" version = false ->
  let modPath := JS.split ">" (path vuln) in
  JS.split ">" (update_entry name version vuln)
  = JS.slice 0 (JS.indexOf name modPath) modPath ++ [at_spec name version]
  /\ last (JS.split ">" (update_entry name version vuln))
     = Some (at_spec name version)
  /\ (forall pre post, modPath = pre ++ name :: post -> ~ In name pre ->
      JS.split ">" (update_entry name version vuln)
      = pre ++ [at_spec name version]).
Proof.
  intros Hn Hv modPath.
  assert (E : JS.split ">" (update_entry name version vuln)
              = JS.slice 0 (JS.indexOf name modPath) modPath
                ++ [at_spec name version])
    by (by apply split_update_entry).
  split; [exact E|]. split.
  - rewrite E. apply last_snoc.
  - intros pre post Hsplit Hpre. rewrite E, Hsplit.
    by rewrite indexOf_first, slice_0_prefix.
Qed.

Lemma deep_path_of_update_entry_witness :
  JS.split ">" (update_entry "lodash" "4.17.21"
                  {| path := "webpack>async>lodash" |})
  = ["webpack"; "async"; "lodash@4.17.21"].
Proof.
  destruct (deep_path_of_update_entry "lodash" "4.17.21"
              {| path := "webpack>async>lodash" |} eq_refl eq_refl)
    as (_ & _ & H).
  exact (H ["webpack"; "async"] [] eq_refl
           ltac:(intros [H'|[H'|[]]]; discriminate)).
Defined.

End DeepPath.

(** ** The patcher on any tree *)

Section PatcherExtras.

Variable npa : string -> Result Spec.

Lemma find_by_name_found (h : gmap loc Node) (nm : option string)
    (rs : list loc) (t : loc) :
  find_by_name h nm rs = Ok (Some t) ->
  exists n, h !! t = Some n /\ Some (name n) = nm.
Proof.
  induction rs as [|r rs IH]; cbn [find_by_name]; [done|].
  destruct (h !! r) as [n|] eqn:Hr; [|done].
  destruct (decide (Some (name n) = nm)) as [E|_]; [|exact IH].
  intros [= <-]. eauto.
Qed.

Lemma requires_find_found (acc : option loc) (nm : option string)
    (h : gmap loc Node) (t : loc) :
  fst (requires_find acc nm h) = Ok (Some t) ->
  exists p np rs n,
    acc = Some p /\ h !! p = Some np /\ requires np = Some rs
    /\ find_by_name h nm rs = Ok (Some t)
    /\ h !! t = Some n /\ Some (name n) = nm.
Proof.
  destruct acc as [p|]; [|done].
  destruct (h !! p) as [np|] eqn:Hp.
  - rewrite (requires_find_node p np) by done. cbn [fst].
    destruct (requires np) as [rs|] eqn:Hrs; [|done].
    intros Hf. destruct (find_by_name_found _ _ _ _ Hf) as (n & ? & ?).
    exists p, np, rs, n. done.
  - unfold requires_find, bind, deref. by rewrite Hp.
Qed.

(** Stripping a node keeps its name, so every lookup by name finds what
    it found before. *)
Lemma find_by_name_strip (h : gmap loc Node) (nm : option string)
    (rs : list loc) (t : loc) (n : Node) (spec : Spec) :
  h !! t = Some n ->
  find_by_name (<[t := strip spec n]> h) nm rs = find_by_name h nm rs.
Proof.
  intros Ht. induction rs as [|r rs IH]; cbn [find_by_name]; [done|].
  destruct (decide (t = r)) as [<-|Hne].
  - rewrite lookup_insert_eq, Ht. cbn [strip name]. by rewrite IH.
  - rewrite lookup_insert_ne by done. by rewrite IH.
Qed.

(** One step writes at most one node, and what it writes is that node
    stripped. *)
Lemma patch_step_writes (this : Auditor) (acc : option loc) (child : string)
    (i : nat) (h : gmap loc Node) :
  snd (patch_step npa this acc child i h) = h
  \/ exists spec t n,
       h !! t = Some n
       /\ snd (patch_step npa this acc child i h) = <[t := strip spec n]> h.
Proof.
  destruct (decide (Z.of_nat i = (Z.of_nat (length (_deepArgs this)) - 1)%Z))
    as [Hi|Hi].
  - destruct (npa child) as [spec|e] eqn:Hspec.
    + destruct (fst (requires_find acc (spec_name spec) h)) as [[t|]|e] eqn:Hf.
      * destruct (requires_find_found _ _ _ _ Hf)
          as (p & np & rs & n & _ & _ & _ & _ & Ht & _).
        right. exists spec, t, n. split; [done|].
        rewrite (patch_step_strip npa this acc child i h spec t n) by done.
        apply requires_find_heap.
      * left. by rewrite (patch_step_no_target npa this acc child i h spec).
      * left. by rewrite (patch_step_find_throws npa this acc child i h spec e).
    + left. by rewrite (patch_step_parse_throws npa this acc child i h e).
  - left. rewrite patch_step_lookup by done. apply requires_find_heap.
Qed.

Lemma only_stripped_refl (h : gmap loc Node) : only_stripped h h.
Proof. intros l. destruct (h !! l) as [n|]; eauto. Qed.

Lemma only_stripped_trans (h1 h2 h3 : gmap loc Node) :
  only_stripped h1 h2 -> only_stripped h2 h3 -> only_stripped h1 h3.
Proof.
  intros H12 H23 l. specialize (H12 l). specialize (H23 l).
  destruct (h3 !! l) as [n3|].
  - destruct H23 as (n2 & E2 & H23). rewrite E2 in H12.
    destruct H12 as (n1 & E1 & H12). exists n1. split; [done|].
    destruct H23 as [->|(spec & ->)]; [done|]. right. exists spec.
    by destruct H12 as [->|(spec' & ->)].
  - by rewrite H23 in H12.
Qed.

Lemma only_stripped_insert (h : gmap loc Node) (t : loc) (n : Node)
    (spec : Spec) :
  h !! t = Some n -> only_stripped h (<[t := strip spec n]> h).
Proof.
  intros Ht l. destruct (decide (t = l)) as [<-|Hne].
  - rewrite lookup_insert_eq. eauto.
  - rewrite lookup_insert_ne by done. destruct (h !! l); eauto.
Qed.

Lemma patch_step_only_strips (this : Auditor) (acc : option loc)
    (child : string) (i : nat) (h : gmap loc Node) :
  only_stripped h (snd (patch_step npa this acc child i h)).
Proof.
  destruct (patch_step_writes this acc child i h) as [->|(spec & t & n & Ht & ->)].
  - apply only_stripped_refl.
  - by apply only_stripped_insert.
Qed.

Lemma reduce_only_strips (this : Auditor) (arg : list string) (i : nat)
    (acc : option loc) (h : gmap loc Node) :
  only_stripped h (snd (reduce (patch_step npa this) arg i acc h)).
Proof.
  revert i acc h. induction arg as [|child rest IH]; intros i acc h.
  - apply only_stripped_refl.
  - cbn [reduce]. unfold bind.
    pose proof (patch_step_only_strips this acc child i h) as Hs.
    destruct (patch_step npa this acc child i h) as [[acc'|e] h']; cbn [snd] in *.
    + eapply only_stripped_trans; [exact Hs | apply IH].
    + exact Hs.
Qed.

Lemma forEach_only_strips (this : Auditor) (paths : list (list string))
    (h : gmap loc Node) :
  only_stripped h
    (snd (forEach (fun arg => exec patch_path npa this arg in ret tt) paths h)).
Proof.
  revert h. induction paths as [|arg paths IH]; intros h.
  - apply only_stripped_refl.
  - cbn [forEach]. unfold bind at 1. unfold bind at 1.
    pose proof (reduce_only_strips this arg 0 (Some (idealTree this)) h) as Hs.
    fold (patch_path npa this arg) in Hs.
    destruct (patch_path npa this arg h) as [[acc|e] h']; cbn [snd] in *.
    + unfold ret at 1. eapply only_stripped_trans; [exact Hs | apply IH].
    + exact Hs.
Qed.

(** Whatever the deep arguments and whether or not the run throws, the
    patcher adds no node, removes none, and changes a node only by
    stripping it: every node keeps its name and its [package._shrinkwrap],
    and a changed node has lost [from], [resolved], [requires] and
    [integrity]. *)
Theorem apply_deepArgs_only_strips (this : Auditor) (h : gmap loc Node) :
  only_stripped h (snd (apply_deepArgs npa this h))
  /\ forall l,
       name <$> (snd (apply_deepArgs npa this h) !! l) = name <$> (h !! l)
       /\ package_shrinkwrap <$> (snd (apply_deepArgs npa this h) !! l)
          = package_shrinkwrap <$> (h !! l).
Proof.
  assert (H : only_stripped h (snd (apply_deepArgs npa this h)))
    by apply forEach_only_strips.
  split; [exact H|]. intros l. specialize (H l).
  destruct (snd (apply_deepArgs npa this h) !! l) as [n'|].
  - destruct H as (n & -> & [->|(spec & ->)]); done.
  - by rewrite H.
Qed.

Lemma forEach_short_paths (this : Auditor) (paths : list (list string))
    (h : gmap loc Node) :
  (forall arg, In arg paths ->
     (length arg < length (_deepArgs this))%nat) ->
  snd (forEach (fun arg => exec patch_path npa this arg in ret tt) paths h) = h.
Proof.
  induction paths as [|arg paths IH]; intros Hall; [done|].
  cbn [forEach]. unfold bind at 1. unfold bind at 1.
  pose proof (patch_path_shorter_than_count npa this arg h
                (Hall arg (or_introl eq_refl))) as Hh.
  destruct (patch_path npa this arg h) as [[acc|e] h']; cbn [snd] in Hh; subst h'.
  - unfold ret at 1. apply IH. intros a Ha. apply Hall. by right.
  - done.
Qed.

(** When every deep-arg path has fewer segments than there are paths (two
    or more root-level updates, say), no index ever equals
    [this._deepArgs.length - 1]: nothing is parsed and the tree comes out
    as it went in, none of the updates applied. *)
Theorem apply_deepArgs_short_paths_untouched (this : Auditor)
    (h : gmap loc Node) :
  (forall arg, In arg (_deepArgs this) ->
     (length arg < length (_deepArgs this))%nat) ->
  snd (apply_deepArgs npa this h) = h.
Proof. intros Hall. by apply forEach_short_paths. Qed.

(** Up to the compared index the reduce either throws or arrives at a
    node. *)
Lemma reduce_prefix (this : Auditor) (pre tail : list string) (i : nat)
    (acc : option loc) (h : gmap loc Node) :
  (i + length pre < length (_deepArgs this))%nat ->
  tail <> [] ->
  is_Throw (fst (reduce (patch_step npa this) (pre ++ tail) i acc h)) = true
  \/ exists p, reduce (patch_step npa this) (pre ++ tail) i acc h
               = reduce (patch_step npa this) tail (i + length pre) (Some p) h.
Proof.
  revert i acc. induction pre as [|c pre IH]; intros i acc Hlen Htail.
  - cbn [app length]. rewrite Nat.add_0_r. destruct acc as [p|]; [eauto|].
    left. by apply reduce_undefined.
  - cbn [app reduce length] in *. unfold bind at 1 2.
    rewrite patch_step_lookup by lia.
    pose proof (requires_find_heap acc (Some c) h) as Hh.
    destruct (requires_find acc (Some c) h) as [[acc'|e] h'];
      cbn [snd] in Hh; subst h'; [|by left].
    destruct (IH (S i) acc') as [Ht|(p & E)]; [lia|done|by left|].
    right. exists p. rewrite E. f_equal. lia.
Qed.

(** A path with more segments than there are paths: the segment at index
    [this._deepArgs.length - 1] is parsed although others follow; when it
    parses to its own name, its node is stripped of [requires] and the
    next segment throws. *)
Lemma patch_path_longer_throws (this : Auditor) (arg : list string)
    (h : gmap loc Node) (child : string) (spec : Spec) :
  (length (_deepArgs this) < length arg)%nat ->
  (1 <= length (_deepArgs this))%nat ->
  arg !! (length (_deepArgs this) - 1)%nat = Some child ->
  npa child = Ok spec ->
  spec_name spec = Some child ->
  is_Throw (fst (patch_path npa this arg h)) = true.
Proof.
  intros Hlong Hone Hchild Hspec Hname.
  apply list_elem_of_split_length in Hchild as (pre & tl & -> & Hpre).
  rewrite length_app in Hlong.
  destruct tl as [|next rest]; cbn [length] in Hlong; [lia|].
  unfold patch_path.
  destruct (reduce_prefix this pre (child :: next :: rest) 0
              (Some (idealTree this)) h) as [Ht|(p & ->)]; [lia|done|done|].
  cbn [reduce]. unfold bind at 1.
  assert (Hi : Z.of_nat (0 + length pre)
               = (Z.of_nat (length (_deepArgs this)) - 1)%Z) by lia.
  destruct (fst (requires_find (Some p) (Some child) h)) as [[t|]|e] eqn:Hf.
  - destruct (requires_find_found _ _ _ _ Hf)
      as (p' & np & rs & n & [= <-] & Hp & Hrs & Hfind & Ht & _).
    rewrite (patch_step_strip npa this (Some p) child _ h spec t n Hi Hspec)
      by (rewrite ?Hname; done).
    destruct (decide (t = p)) as [->|Hne].
    + rewrite (requires_find_node p (strip spec n)) by apply lookup_insert_eq.
      done.
    + rewrite (requires_find_node p np)
        by (by rewrite lookup_insert_ne).
      rewrite Hrs, (find_by_name_strip h _ rs t n spec Ht), Hfind.
      unfold bind at 1. rewrite patch_step_lookup by lia.
      rewrite (requires_find_node t (strip spec n)) by apply lookup_insert_eq.
      done.
  - rewrite (patch_step_no_target npa this (Some p) child _ h spec Hi Hspec)
      by (by rewrite Hname).
    done.
  - rewrite (patch_step_find_throws npa this (Some p) child _ h spec e Hi Hspec)
      by (by rewrite Hname).
    done.
Qed.

Lemma forEach_long_path (this : Auditor) (paths : list (list string))
    (h : gmap loc Node) (arg : list string) (child : string) (spec : Spec) :
  In arg paths ->
  (length (_deepArgs this) < length arg)%nat ->
  (1 <= length (_deepArgs this))%nat ->
  arg !! (length (_deepArgs this) - 1)%nat = Some child ->
  npa child = Ok spec ->
  spec_name spec = Some child ->
  is_Throw
    (fst (forEach (fun arg => exec patch_path npa this arg in ret tt) paths h))
  = true.
Proof.
  intros Hin Hlong Hone Hchild Hspec Hname. revert h.
  induction paths as [|a paths IH]; intros h; [done|].
  cbn [forEach]. unfold bind at 1. unfold bind at 1.
  destruct Hin as [->|Hin].
  - pose proof (patch_path_longer_throws this arg h child spec
                  Hlong Hone Hchild Hspec Hname) as Ht.
    by destruct (patch_path npa this arg h) as [[acc|e] h'].
  - destruct (patch_path npa this a h) as [[acc|e] h']; [|done].
    unfold ret at 1. by apply IH.
Qed.

Lemma apply_deepArgs_long_path (this : Auditor) (h : gmap loc Node)
    (arg : list string) (child : string) (spec : Spec) :
  In arg (_deepArgs this) ->
  (length (_deepArgs this) < length arg)%nat ->
  arg !! (length (_deepArgs this) - 1)%nat = Some child ->
  npa child = Ok spec ->
  spec_name spec = Some child ->
  is_Throw (fst (apply_deepArgs npa this h)) = true.
Proof.
  intros Hin Hlong Hchild Hspec Hname.
  apply (forEach_long_path this _ h arg child spec); try done.
  destruct (_deepArgs this); [done|cbn; lia].
Qed.

(** When some deep-arg path has more segments than there are paths (a
    single update of a nested dependency, say) and its segment at index
    [this._deepArgs.length - 1] parses to its own name, the patcher
    throws: that update is never applied. *)
Theorem apply_deepArgs_long_path_throws (this : Auditor) (h : gmap loc Node)
    (arg : list string) (child : string) (spec : Spec) :
  In arg (_deepArgs this) ->
  (length (_deepArgs this) < length arg)%nat ->
  arg !! (length (_deepArgs this) - 1)%nat = Some child ->
  npa child = Ok spec ->
  spec_name spec = Some child ->
  is_Throw (fst (apply_deepArgs npa this h)) = true.
Proof.
  intros Hin Hlong Hchild Hspec Hname.
  by apply (apply_deepArgs_long_path this h arg child spec).
Qed.

End PatcherExtras.

(** ** Reading the project files *)

Section FilesExtras.

Variable readFile : string -> Result string.
Variable parseJson : string -> Result Json.

(** [maybeReadFile] gives [null] in two cases only: the read failed with
    code [ENOENT], or the file was read and its text parses to [null].  A
    text that does not parse never counts as a missing file. *)
Theorem maybeReadFile_null_iff (npm : Npm) (name : string) :
  maybeReadFile readFile parseJson npm name = file_value JNull
  <-> (exists e, readFile (prefix npm +:+ "/" +:+ name) = Throw e
                 /\ code e = Some "ENOENT")
      \/ (exists data, readFile (prefix npm +:+ "/" +:+ name) = Ok data
                       /\ parseJson data = Ok JNull).
Proof.
  unfold maybeReadFile. cbv zeta.
  destruct (readFile (prefix npm +:+ "/" +:+ name)) as [data|e].
  - destruct (parseJson data) as [v|ex] eqn:Hp; cbv beta iota.
    + split.
      * intros [= ->]. right. eauto.
      * intros [(e & ? & _)|(d & [= <-] & Hd)]; [done|].
        rewrite Hp in Hd. by injection Hd as ->.
    + cbn [code set_code]. destruct (decide (Some "EJSONPARSE" = Some "ENOENT"));
        [done|].
      split; [done|]. intros [(e & ? & _)|(d & [= <-] & Hd)]; [done|].
      rewrite Hp in Hd. done.
  - destruct (decide (code e = Some "ENOENT")) as [Hc|Hc].
    + split; [|done]. intros _. left. eauto.
    + split; [done|]. intros [(e' & [= <-] & ?)|(d & ? & _)]; done.
Qed.

(** Every error that leaves [maybeReadFile] names the file
    [prefix/name].  A parse failure comes out with code [EJSONPARSE],
    whatever code the parser's error had (even [ENOENT]); a failed read
    other than [ENOENT] comes out with its own code. *)
Theorem maybeReadFile_errors (npm : Npm) (name : string) :
  (forall data ex,
      readFile (prefix npm +:+ "/" +:+ name) = Ok data ->
      parseJson data = Throw ex ->
      maybeReadFile readFile parseJson npm name
      = file_error {| ctor := ctor ex; message := message ex;
                      code := Some "EJSONPARSE";
                      statusCode := statusCode ex; wrapped := wrapped ex |}
          (prefix npm +:+ "/" +:+ name))
  /\ (forall e,
         readFile (prefix npm +:+ "/" +:+ name) = Throw e ->
         code e <> Some "ENOENT" ->
         maybeReadFile readFile parseJson npm name
         = file_error e (prefix npm +:+ "/" +:+ name))
  /\ (forall ex file,
         maybeReadFile readFile parseJson npm name = file_error ex file ->
         file = prefix npm +:+ "/" +:+ name /\ code ex <> Some "ENOENT").
Proof.
  unfold maybeReadFile. cbv zeta. split; [|split].
  - intros data ex -> ->. cbn [code set_code].
    by destruct (decide (Some "EJSONPARSE" = Some "ENOENT")).
  - intros e -> Hc. by destruct (decide (code e = Some "ENOENT")).
  - intros ex file.
    destruct (readFile _) as [data|e]; [destruct (parseJson data) as [v|e]|];
      cbv beta iota; [done| |].
    + destruct (decide (code (set_code e "EJSONPARSE") = Some "ENOENT"));
        [done|]. by intros [= <- <-].
    + destruct (decide (code e = Some "ENOENT")); [done|]. by intros [= <- <-].
Qed.

End FilesExtras.

(** ** [auditCmd] before the report *)

Section AssignLemmas.



End AssignLemmas.


Section AuditCmdExtras.

Variable AuditReport : Type.
Variable lockVerify : string -> Result LockVerifyResult.
Variable generate : Json -> gmap string Json -> Result AuditReport.
Variable submitForFullReport : AuditReport -> Result AuditResult.

Abbreviation run :=
  (auditCmd AuditReport lockVerify generate submitForFullReport).

(** [args] names no subcommand or names [fix]. *)
Lemma valid_args_continue (args : list string) :
  (forall arg0 rest, args = arg0 :: rest -> arg0 = "fix") ->
  match args with
  | arg0 :: _ => if negb (String.eqb arg0 "fix") then Some arg0 else None
  | [] => None
  end = None.
Proof.
  intros Hv. destruct args as [|arg0 rest]; [done|].
  by rewrite (Hv arg0 rest eq_refl).
Qed.

(** [auditCmd] throws only for the global check, which comes first; a
    subcommand other than [fix] is reported through the callback.  In
    both cases nothing is logged, [process] is left alone, and neither
    the files nor the collaborators matter. *)
Theorem auditCmd_rejects_before_reading (npm : Npm) (global : bool)
    (args : list string) (files : Result (Json * Json * Json))
    (proc : Process) :
  (global = true ->
   run npm global args files proc
   = (thrown {| ctor := "Error";
                message := "`npm audit` does not support testing globals";
                code := Some "EAUDITGLOBAL"; statusCode := None;
                wrapped := None |}, proc, []))
  /\ (forall arg0 rest,
         global = false -> args = arg0 :: rest -> arg0 <> "fix" ->
         run npm global args files proc
         = (called_back
              (Some (new_Error ("Invalid audit subcommand: `" +:+ arg0 +:+ "`"
                                +:+ nl +:+ nl +:+ "Usage:" +:+ nl
                                +:+ "npm audit" +:+ nl +:+ "npm audit fix"
                                +:+ nl))),
            proc, []))
  /\ (forall e, fst (fst (run npm global args files proc)) = thrown e ->
                global = true).
Proof.
  unfold auditCmd. split; [|split].
  - by intros ->.
  - intros arg0 rest -> -> Hne. apply String.eqb_neq in Hne. by rewrite Hne.
  - intros e. destruct global; [done|]. cbv zeta.
    destruct (match args with [] => None | _ => _ end); [done|].
    destruct (match files with Ok _ => _ | Throw _ => _ end) as [submitted logged].
    destruct (auditCmd_tail npm args submitted proc) as [[effs|e'] proc']; done.
Qed.

(** Without a manifest, or without any lockfile, the run ends with
    [EAUDITNOPJSON], respectively [EAUDITNOLOCK], before anything is
    verified, generated or sent; the missing manifest is reported first.
    A file that holds [null], [false], [0] or an empty string counts as
    missing. *)
Theorem auditCmd_needs_manifest_and_lockfile (npm : Npm) (args : list string)
    (shrinkwrap lockfile pkgJson : Json) (proc : Process) :
  (forall arg0 rest, args = arg0 :: rest -> arg0 = "fix") ->
  (truthy pkgJson = false ->
   run npm false args (Ok (shrinkwrap, lockfile, pkgJson)) proc
   = (called_back
        (Some {| ctor := "Error";
                 message := "No package.json found: Cannot audit a project without a package.json";
                 code := Some "EAUDITNOPJSON"; statusCode := None;
                 wrapped := None |}), proc, []))
  /\ (truthy pkgJson = true -> truthy shrinkwrap = false ->
      truthy lockfile = false ->
      run npm false args (Ok (shrinkwrap, lockfile, pkgJson)) proc
      = (called_back
           (Some {| ctor := "Error";
                    message := "Neither npm-shrinkwrap.json nor package-lock.json found: Cannot audit a project without a lockfile";
                    code := Some "EAUDITNOLOCK"; statusCode := None;
                    wrapped := None |}), proc, [])).
Proof.
  intros Hv. unfold auditCmd. cbv zeta. rewrite (valid_args_continue args Hv).
  unfold request_report. cbv zeta. split.
  - by intros ->.
  - by intros -> -> ->.
Qed.

(** When [npm-shrinkwrap.json] is there, [package-lock.json] plays no
    part: its contents change nothing but the warning that both exist. *)
Theorem shrinkwrap_shadows_lockfile (npm : Npm) (args : list string)
    (shrinkwrap lockfile pkgJson : Json) (proc : Process) :
  (forall arg0 rest, args = arg0 :: rest -> arg0 = "fix") ->
  truthy shrinkwrap = true ->
  truthy pkgJson = true ->
  run npm false args (Ok (shrinkwrap, lockfile, pkgJson)) proc
  = (let '(outcome, proc', effs) :=
       run npm false args (Ok (shrinkwrap, JNull, pkgJson)) proc in
     (outcome, proc',
      (if truthy lockfile
       then [log_warn "audit"
               "Both npm-shrinkwrap.json and package-lock.json exist, using npm-shrinkwrap.json."]
       else []) ++ effs)).
Proof.
  intros Hv Hs Hp. unfold auditCmd. cbv zeta.
  rewrite (valid_args_continue args Hv).
  unfold request_report. cbv zeta. rewrite Hs, Hp. cbn [negb andb truthy].
  rewrite Hs. cbn [negb].
  destruct (match lockVerify (prefix npm) with Ok _ => _ | Throw _ => _ end)
    as [res|e].
  - destruct (auditCmd_tail npm args (Ok res) proc) as [[effs|e'] proc'];
      by destruct (truthy lockfile).
  - destruct (auditCmd_tail npm args (Throw e) proc) as [[effs|e'] proc'] eqn:Et.
    + by destruct (truthy lockfile).
    + destruct (truthy lockfile); [|done]. by rewrite app_nil_r.
Qed.

(** When the lockfile does not verify, the run ends with [ELOCKVERIFY];
    the message names the lockfile that is in use ([npm-shrinkwrap.json]
    when it is there) and lists the errors, four spaces in, one per
    line; no report is generated or sent. *)
Theorem auditCmd_lock_verify_failure (npm : Npm) (args : list string)
    (shrinkwrap lockfile pkgJson : Json) (proc : Process)
    (result : LockVerifyResult) :
  (forall arg0 rest, args = arg0 :: rest -> arg0 = "fix") ->
  truthy pkgJson = true ->
  truthy (if truthy shrinkwrap then shrinkwrap else lockfile) = true ->
  lockVerify (prefix npm) = Ok result ->
  status result = false ->
  run npm false args (Ok (shrinkwrap, lockfile, pkgJson)) proc
  = (called_back
       (Some {| ctor := "Error";
                message :=
                  "Errors were found in your "
                  +:+ (if truthy shrinkwrap then "npm-shrinkwrap.json"
                       else "package-lock.json")
                  +:+ ", run  npm install  to fix them." +:+ nl +:+ "    "
                  +:+ JS.join (nl +:+ "    ") (errors result);
                code := Some "ELOCKVERIFY"; statusCode := None;
                wrapped := None |}),
     proc,
     if truthy shrinkwrap && truthy lockfile
     then [log_warn "audit"
             "Both npm-shrinkwrap.json and package-lock.json exist, using npm-shrinkwrap.json."]
     else []).
Proof.
  intros Hv Hp Hsw Hlv Hst. unfold auditCmd. cbv zeta.
  rewrite (valid_args_continue args Hv).
  unfold request_report. cbv zeta. rewrite Hp, Hsw, Hlv, Hst. reflexivity.
Qed.


End AuditCmdExtras.

Lemma auditCmd_needs_manifest_and_lockfile_witness :
  auditCmd unit (fun _ => Ok {| status := true; errors := [] |})
    (fun _ _ => Ok tt)
    (fun _ => Ok {| actions := None;
                    metadata := {| vulnerabilities :=
                                     {| low := 0; moderate := 0; high := 0;
                                        critical := 0 |} |} |})
    {| prefix := "/app"; config_registry := "https://registry.npmjs.org/";
       config_dry_run := false |}
    false [] (Ok (JNull, JObject [("lockfileVersion", JNumber 1)], JNull))
    {| exitCode := None |}
  = (called_back
       (Some {| ctor := "Error";
                message := "No package.json found: Cannot audit a project without a package.json";
                code := Some "EAUDITNOPJSON"; statusCode := None;
                wrapped := None |}), {| exitCode := None |}, []).
Proof.
  refine (proj1 (auditCmd_needs_manifest_and_lockfile unit
                   (fun _ => Ok {| status := true; errors := [] |})
                   (fun _ _ => Ok tt) _ _ [] JNull
                   (JObject [("lockfileVersion", JNumber 1)]) JNull
                   {| exitCode := None |} _)
            eq_refl).
  intros arg0 rest H. discriminate H.
Defined.


Lemma shrinkwrap_shadows_lockfile_witness :
  auditCmd unit (fun _ => Ok {| status := false; errors := ["Missing: a@^1.0.0"] |})
    (fun _ _ => Ok tt)
    (fun _ => Throw (new_Error "unreachable"))
    {| prefix := "/app"; config_registry := "https://registry.npmjs.org/";
       config_dry_run := false |}
    false []
    (Ok (JObject [("lockfileVersion", JNumber 1)],
         JObject [("lockfileVersion", JNumber 1); ("requires", JBool true)],
         JObject [("name", JString "app")]))
    {| exitCode := None |}
  = (let '(outcome, proc', effs) :=
       auditCmd unit
         (fun _ => Ok {| status := false; errors := ["Missing: a@^1.0.0"] |})
         (fun _ _ => Ok tt)
         (fun _ => Throw (new_Error "unreachable"))
         {| prefix := "/app"; config_registry := "https://registry.npmjs.org/";
            config_dry_run := false |}
         false []
         (Ok (JObject [("lockfileVersion", JNumber 1)], JNull,
              JObject [("name", JString "app")]))
         {| exitCode := None |} in
     (outcome, proc',
      [log_warn "audit"
         "Both npm-shrinkwrap.json and package-lock.json exist, using npm-shrinkwrap.json."]
      ++ effs)).
Proof.
  refine (shrinkwrap_shadows_lockfile unit _ _ _ _ []
            (JObject [("lockfileVersion", JNumber 1)])
            (JObject [("lockfileVersion", JNumber 1); ("requires", JBool true)])
            (JObject [("name", JString "app")]) {| exitCode := None |}
            _ eq_refl eq_refl).
  intros arg0 rest H. discriminate H.
Defined.

Lemma auditCmd_lock_verify_failure_witness :
  auditCmd unit
    (fun _ => Ok {| status := false;
                    errors := ["Missing: a@^1.0.0"; "Invalid: b@2.0.0"] |})
    (fun _ _ => Ok tt)
    (fun _ => Throw (new_Error "unreachable"))
    {| prefix := "/app"; config_registry := "https://registry.npmjs.org/";
       config_dry_run := false |}
    false ["fix"]
    (Ok (JNull, JObject [("lockfileVersion", JNumber 1)],
         JObject [("name", JString "app")]))
    {| exitCode := None |}
  = (called_back
       (Some {| ctor := "Error";
                message :=
                  "Errors were found in your package-lock.json, run  npm install  to fix them."
                  +:+ nl +:+ "    Missing: a@^1.0.0"
                  +:+ nl +:+ "    Invalid: b@2.0.0";
                code := Some "ELOCKVERIFY"; statusCode := None;
                wrapped := None |}),
     {| exitCode := None |}, []).
Proof.
  refine (auditCmd_lock_verify_failure unit _ _ _ _ ["fix"] JNull
            (JObject [("lockfileVersion", JNumber 1)])
            (JObject [("name", JString "app")]) {| exitCode := None |}
            {| status := false;
               errors := ["Missing: a@^1.0.0"; "Invalid: b@2.0.0"] |}
            _ eq_refl eq_refl eq_refl eq_refl).
  intros arg0 rest H. by injection H as <- _.
Defined.


(** ** Completion *)

(** [npm audit] completes to nothing: the callback gets the empty list
    when the third word of the command line is [audit], and an error
    for any other word or none, [fix] included. *)
Theorem completion_offers_nothing (argv : list string) :
  (forall candidates, completion argv = Ok candidates ->
                      candidates = [] /\ argv !! 2%nat = Some "audit")
  /\ (argv !! 2%nat = Some "audit" -> completion argv = Ok [])
  /\ (forall word, argv !! 2%nat = Some word -> word <> "audit" ->
                   completion argv = Throw (new_Error (word +:+ " not recognized")))
  /\ (argv !! 2%nat = None ->
      completion argv = Throw (new_Error "undefined not recognized")).
Proof.
  unfold completion. destruct (argv !! 2%nat) as [arg2|].
  - destruct (String.eqb_spec arg2 "audit") as [->|Hne].
    + split; [|split; [|split]]; [|done| |done].
      * by intros candidates [= <-].
      * by intros word [= <-] Hne.
    + split; [|split; [|split]]; [done| | |done].
      * by intros [= ->].
      * by intros word [= <-] _.
  - split; [|split; [|split]]; done.
Qed.

(** ** The patcher and [loadShrinkwrap] together *)

Lemma apply_deepArgs_short_paths_untouched_witness :
  snd (apply_deepArgs npa_model
         (new_Auditor "/app" false []
            (Some (Some [["x@1.0.0"]; ["y@1.0.0"]; ["z@2.1.0"]])) 0) tree_y)
  = tree_y.
Proof.
  apply (apply_deepArgs_short_paths_untouched npa_model).
  intros arg [<-|[<-|[<-|[]]]]; cbn; lia.
Defined.

Lemma apply_deepArgs_long_path_throws_witness :
  is_Throw
    (fst (apply_deepArgs npa_model
            (new_Auditor "/app" false [] (Some (Some [["a"; "b@2.0.0"]])) 0)
            tree_ab))
  = true.
Proof.
  apply (apply_deepArgs_long_path_throws npa_model _ tree_ab ["a"; "b@2.0.0"] "a"
           {| spec_name := Some "a"; fetchSpec := Some "latest" |}).
  - by left.
  - cbn. lia.
  - reflexivity.
  - reflexivity.
  - reflexivity.
Defined.

Section LoadShrinkwrapExtras.

Variable npa : string -> Result Spec.
Variable readShrinkwrap : loc -> M unit.
Variable inflateShrinkwrap : loc -> option nat -> M unit.

(** After the lockfile is read: without lockfile data on the root the
    deep arguments are not looked at and nothing is inflated; when the
    patcher throws, the error is the outcome and nothing is inflated,
    whatever was stripped stays stripped; when the patcher returns, the
    tree it leaves is inflated with the very lockfile data the root had,
    which no patch can touch. *)
Theorem loadShrinkwrap_around_patcher (this : Auditor) (h h' : gmap loc Node)
    (root : Node) :
  readShrinkwrap (idealTree this) h = (Ok tt, h') ->
  h' !! idealTree this = Some root ->
  (package_shrinkwrap root = None ->
   loadShrinkwrap npa readShrinkwrap inflateShrinkwrap this h = (Ok tt, h'))
  /\ (forall sw e h'',
         package_shrinkwrap root = Some sw ->
         apply_deepArgs npa this h' = (Throw e, h'') ->
         loadShrinkwrap npa readShrinkwrap inflateShrinkwrap this h
         = (Throw e, h''))
  /\ (forall sw h'',
         package_shrinkwrap root = Some sw ->
         apply_deepArgs npa this h' = (Ok tt, h'') ->
         loadShrinkwrap npa readShrinkwrap inflateShrinkwrap this h
         = inflateShrinkwrap (idealTree this) (Some sw) h'').
Proof.
  intros Hread Hroot. split; [|split].
  - intros Hsw.
    by apply (loadShrinkwrap_without_lockfile npa _ _ this h h' root).
  - intros sw e h'' Hsw Hpatch.
    by apply (loadShrinkwrap_patch_throws npa _ _ this h h' h'' root sw).
  - intros sw h'' Hsw Hpatch.
    pose proof (forEach_only_strips npa this (_deepArgs this) h'
                  (idealTree this)) as Hinv.
    fold (apply_deepArgs npa this) in Hinv. rewrite Hpatch in Hinv.
    cbn [snd] in Hinv.
    destruct (h'' !! idealTree this) as [root'|] eqn:Hroot';
      [|by rewrite Hroot in Hinv].
    destruct Hinv as (n & Hn & Hcase). rewrite Hroot in Hn.
    injection Hn as <-.
    rewrite (loadShrinkwrap_patched npa _ _ this h h' h'' root root' sw)
      by done.
    f_equal. rewrite <- Hsw. by destruct Hcase as [->|(spec & ->)].
Qed.

End LoadShrinkwrapExtras.

Lemma loadShrinkwrap_around_patcher_witness :
  loadShrinkwrap npa_model (fun _ _ => (Ok tt, tree_ab)) (fun _ _ => ret tt)
    (new_Auditor "/app" false [] (Some (Some [["a"; "b@2.0.0"]])) 0) ∅
  = (Throw (TypeError "find"),
     <[1%nat := {| name := "a"; version := Some "latest"; from := None;
                   resolved := None; requires := None; integrity := None;
                   package_shrinkwrap := None |}]> tree_ab).
Proof.
  refine (proj1 (proj2 (loadShrinkwrap_around_patcher npa_model
                          (fun _ _ => (Ok tt, tree_ab)) (fun _ _ => ret tt)
                          (new_Auditor "/app" false []
                             (Some (Some [["a"; "b@2.0.0"]])) 0)
                          ∅ tree_ab
                          (example_node "app" "1.0.0" [1%nat] (Some 0%nat))
                          eq_refl eq_refl))
            0%nat _ _ eq_refl _).
  vm_compute. reflexivity.
Defined.

(** ** From the report to the tree *)

Section EndToEnd.

Variable npa : string -> Result Spec.

(** What fix mode gives the [Auditor] it constructs. *)
Lemma fix_reinstaller_call (npm : Npm) (args : list string)
    (auditResult : AuditResult) (proc : Process) (iargs : list string)
    (dargs : list (list string)) :
  args !! 0%nat = Some "fix" ->
  In (iargs, dargs)
     (reinstaller_calls (snd (on_audit_result npm args auditResult proc))) ->
  iargs = install (classify (default [] (actions auditResult)))
  /\ dargs = map (JS.split ">")
               (update (classify (default [] (actions auditResult)))).
Proof.
  intros Hfix. unfold on_audit_result.
  destruct (decide (args !! 0%nat = Some "fix")) as [_|]; [|done].
  cbn [snd]. rewrite fix_orchestrate_calls.
  destruct (install _), (update _); cbn;
    (intros [[= <- <-]|[]] || intros []); done.
Qed.





End EndToEnd.




(** ** An [Auditor] without deep arguments *)

(** Constructed without options, or without [deepArgs] among them, an
    [Auditor] has no deep-arg path and its patcher does nothing; and so
    it is for the [Auditor] of a fix that has only installs to make. *)
Theorem fix_install_only_patches_nothing (npa : string -> Result Spec)
    (npm : Npm) (args : list string) (auditResult : AuditResult)
    (proc : Process) (iargs : list string) (dargs : list (list string))
    (root : loc) (h : gmap loc Node) :
  (forall where_ dryrun args',
      apply_deepArgs npa (new_Auditor where_ dryrun args' None root) h
      = (Ok tt, h)
      /\ apply_deepArgs npa (new_Auditor where_ dryrun args' (Some None) root) h
         = (Ok tt, h))
  /\ (args !! 0%nat = Some "fix" ->
      update (classify (default [] (actions auditResult))) = [] ->
      In (iargs, dargs)
         (reinstaller_calls (snd (on_audit_result npm args auditResult proc))) ->
      apply_deepArgs npa
        (new_Auditor (prefix npm) (config_dry_run npm) iargs
           (Some (Some dargs)) root) h
      = (Ok tt, h)).
Proof.
  split; [done|]. intros Hfix Hu Hcall.
  destruct (fix_reinstaller_call _ _ _ _ _ _ Hfix Hcall) as [-> ->].
  by rewrite Hu.
Qed.
